(** * simple_load_impress: catalogue lookup against the working directory

    A shallow embedding of [simple_load_impress.py].  The module keeps one
    global list object, [AVAILABLE_IMAGES], and offers three operations:
    [load_impress], [list_available_images] and [get_image_info].

    Conventions of the embedding.
    - A Python [str] is a [string] holding its UTF-8 encoding, so [==] on
      [str] is equality of [string]s.
    - [pathlib.Path] is modelled in its POSIX flavour by its root and its
      list of components.
    - List objects live in a store, and values refer to them by reference:
      the functions that hand out the global list itself hand out [RGlobal],
      the ones that build a list hand out a fresh heap reference.
    - The environment supplies the answers of [Path.cwd()] and
      [Path.exists()]; every such call and every [print] is recorded in a
      trace.
    - The script that runs when the module is executed is embedded as
      [main], in a monad of its own that adds the file sizes and catches
      exceptions by their text.
    - In the first part of the development every call of [Path.cwd()],
      [Path.exists()], [stat()] and [print] answers.  Module [Os] embeds
      the same functions and the same script over an environment in which
      each of these calls answers or raises; what is stated for every
      state of the file system is stated there. *)

From Stdlib Require Import Ascii.
From stdpp Require Import base list strings pretty.

(** ** Strings *)

Module Str.

(** Truth value of a [str]: only the empty string is falsy. *)
Definition truthy (s : string) : bool :=
  match s with
  | EmptyString => false
  | String _ _ => true
  end.

(** [s.startswith(c)] for a one-character [c]. *)
Definition starts_with (c : ascii) (s : string) : bool :=
  match s with
  | String a _ => Ascii.eqb a c
  | EmptyString => false
  end.

(** [s.split(sep)] for a one-character separator. *)
Fixpoint split (sep : ascii) (s : string) : list string :=
  match s with
  | EmptyString => [EmptyString]
  | String a s' =>
      if Ascii.eqb a sep then EmptyString :: split sep s'
      else match split sep s' with
           | w :: ws => String a w :: ws
           | [] => [String a EmptyString]
           end
  end.

(** [sep.join(l)]. *)
Fixpoint join (sep : string) (l : list string) : string :=
  match l with
  | [] => ""
  | [x] => x
  | x :: l' => x +:+ sep +:+ join sep l'
  end.

(** [x in l] on a list of [str]: the first element equal to [x] decides. *)
Fixpoint mem (x : string) (l : list string) : bool :=
  match l with
  | [] => false
  | y :: l' => if String.eqb x y then true else mem x l'
  end.

Definition contains_char (c : ascii) (s : string) : bool :=
  existsb (Ascii.eqb c) (String.list_ascii_of_string s).

Definition hex_digit (n : N) : ascii :=
  ascii_of_N (if (n <? 10)%N then 48 + n else 87 + n).

(** One character of [repr(s)] with [q] as the chosen quote.  Bytes from
    128 on belong to the encoding of a non-ASCII character; such a
    character is copied when it is printable, which holds of every
    letter used in the catalogue (Hangul syllables).  Python escapes a
    non-ASCII character that is not printable (U+00A0, say); no such
    character is told apart here. *)
Definition repr_char (q : ascii) (a : ascii) : string :=
  let n := N_of_ascii a in
  if Ascii.eqb a q then String "\" (String a "")
  else if Ascii.eqb a "\" then "\\"
  else if Ascii.eqb a "009" then "\t"
  else if Ascii.eqb a "010" then "\n"
  else if Ascii.eqb a "013" then "\r"
  else if ((n <? 32) || (n =? 127))%N
       then String "\" (String "x"
              (String (hex_digit (n / 16)) (String (hex_digit (n mod 16)) "")))
  else String a "".

Fixpoint repr_body (q : ascii) (s : string) : string :=
  match s with
  | EmptyString => ""
  | String a s' => repr_char q a +:+ repr_body q s'
  end.

(** [repr(s)]: single quotes, unless [s] has a single quote and no double
    quote. *)
Definition repr (s : string) : string :=
  let q : ascii :=
    if contains_char "'" s && negb (contains_char "034" s) then "034"%char
    else "'"%char in
  String q (repr_body q s) +:+ String q "".

(** [repr(l)] for a list of [str]. *)
Definition repr_list (l : list string) : string :=
  "[" +:+ join ", " (map repr l) +:+ "]".

(** [n] occurs in [s] as a contiguous run of characters. *)
Definition occurs_in (n s : string) : Prop :=
  ∃ pre post, s = pre +:+ n +:+ post.

End Str.

(** ** Paths *)

(** A [PurePosixPath] after parsing: [root] is one of the empty string, a
    single slash or a double slash, and [tail] lists the components. *)
Record Path := mkPath { root : string; tail : list string }.

Module PathOps.

(** The components of a raw path: empty ones and single dots are dropped. *)
Definition components (raw : string) : list string :=
  List.filter (λ x, Str.truthy x && negb (String.eqb x "."))
              (Str.split "/" raw).

(** [posixpath.splitroot]: exactly two leading slashes are kept as a root
    of their own, any other number of them is one slash. *)
Definition splitroot (raw : string) : string :=
  match raw with
  | String "/" (String "/" (String "/" _)) => "/"
  | String "/" (String "/" _) => "//"
  | String "/" _ => "/"
  | _ => ""
  end.

Definition parse (raw : string) : Path :=
  {| root := splitroot raw; tail := components raw |}.

(** [p / key] for a [str] key: an absolute key replaces [p], any other
    key contributes its components. *)
Definition truediv (p : Path) (key : string) : Path :=
  if Str.starts_with "/" key then parse key
  else {| root := root p; tail := tail p ++ components key |}.

(** [str(p)]. *)
Definition to_str (p : Path) : string :=
  match root p, tail p with
  | EmptyString, [] => "."
  | r, t => r +:+ Str.join "/" t
  end.

End PathOps.

Notation "p // key" := (PathOps.truediv p key) (at level 40, left associativity).

(** ** The catalogue as written in the module *)

Definition AVAILABLE_IMAGES : list string := [
  "스크린샷 2025-08-17 오후 5.49.14.png";
  "스크린샷 2025-08-17 오후 5.52.20.png";
  "스크린샷 2025-08-17 오후 5.53.59.png";
  "스크린샷 2025-08-17 오후 5.56.35.png";
  "스크린샷 2025-08-17 오후 5.58.16.png";
  "스크린샷 2025-08-17 오후 6.02.05.png";
  "스크린샷 2025-08-17 오후 6.11.50.png";
  "스크린샷 2025-08-17 오후 6.13.30.png";
  "스크린샷 2025-08-17 오후 6.15.07.png"
].

#[global] Instance Path_eq_dec : EqDecision Path.
Proof. solve_decision. Defined.

(** ** Values and the store *)

(** A reference to a list object: the one bound to the global name
    [AVAILABLE_IMAGES], or one allocated by a call. *)
Inductive ref := RGlobal | RHeap (a : nat).

(** What a list allocated by the module holds. *)
Inductive elem := EStr (s : string) | EPath (p : Path).

(** What [load_impress] returns: a path, or a list object. *)
Inductive value := VPath (p : Path) | VList (r : ref).

#[global] Instance ref_eq_dec : EqDecision ref.
Proof. solve_decision. Defined.
#[global] Instance elem_eq_dec : EqDecision elem.
Proof. solve_decision. Defined.
#[global] Instance value_eq_dec : EqDecision value.
Proof. solve_decision. Defined.

(** [images] is the present content of the global list object; [heap] holds
    the list objects allocated so far, addressed by position. *)
Record store := mkStore { images : list string; heap : list (list elem) }.

Definition deref (s : store) (r : ref) : option (list elem) :=
  match r with
  | RGlobal => Some (EStr <$> images s)
  | RHeap a => heap s !! a
  end.

(** The store right after the module is loaded. *)
Definition module_init : store :=
  {| images := AVAILABLE_IMAGES; heap := [] |}.

(** ** Environment, events, exceptions *)

(** The working directory and the existence test answered by the file
    system at the time of the call. *)
Record env := mkEnv { cwd : Path; exists_ : Path → bool }.

Inductive event :=
| EvCwd                    (* Path.cwd() *)
| EvExists (p : Path)      (* p.exists() *)
| EvPrint (line : string). (* print(line) *)

Inductive exn :=
| ValueError (msg : string)
| FileNotFoundError (msg : string).

(** ** The monad of the module's functions *)

Record outcome (A : Type) := mkOutcome {
  trace : list event;
  final : store;
  ret : exn + A
}.
Arguments mkOutcome {A} _ _ _.
Arguments trace {A} _.
Arguments final {A} _.
Arguments ret {A} _.

Definition M (A : Type) : Type := env → store → outcome A.

#[global] Instance M_ret : MRet M :=
  λ A x _ s, mkOutcome [] s (inr x).

#[global] Instance M_bind : MBind M :=
  λ A B k m e s,
    let o := m e s in
    match ret o with
    | inl x => mkOutcome (trace o) (final o) (inl x)
    | inr a =>
        let o' := k a e (final o) in
        mkOutcome (trace o ++ trace o') (final o') (ret o')
    end.

Definition raise {A} (x : exn) : M A := λ _ s, mkOutcome [] s (inl x).

Definition Path_cwd : M Path := λ e s, mkOutcome [EvCwd] s (inr (cwd e)).

Definition Path_exists (p : Path) : M bool :=
  λ e s, mkOutcome [EvExists p] s (inr (exists_ e p)).

Definition print (line : string) : M unit :=
  λ _ s, mkOutcome [EvPrint line] s (inr ()).

(** Reading the global list. *)
Definition global_images : M (list string) :=
  λ _ s, mkOutcome [] s (inr (images s)).

(** A new list object with the given content. *)
Definition new_list (init : list elem) : M nat :=
  λ _ s, mkOutcome [] {| images := images s; heap := heap s ++ [init] |}
                   (inr (length (heap s))).

(** [l.append(x)] on the list object at heap address [a]. *)
Definition list_append (a : nat) (x : elem) : M unit :=
  λ _ s, mkOutcome [] {| images := images s;
                         heap := alter (λ l, l ++ [x]) a (heap s) |}
                   (inr ()).

(** [for x in l: body(x)]. *)
Fixpoint for_each {A} (l : list A) (body : A → M unit) : M unit :=
  match l with
  | [] => mret ()
  | x :: l' => body x ≫= λ _, for_each l' body
  end.

(** [[x for x in l if cond(x)]], before the result is made an object. *)
Fixpoint comprehension {A} (l : list A) (cond : A → M bool) : M (list A) :=
  match l with
  | [] => mret []
  | x :: l' =>
      b ← cond x;
      r ← comprehension l' cond;
      mret (if b : bool then x :: r else r)
  end.

(** ** The module's functions *)

(** Truth value of an [Optional[str]]: [None] and the empty string are
    falsy. *)
Definition truthy (image_name : option string) : bool :=
  match image_name with
  | Some name => Str.truthy name
  | None => false
  end.

Definition load_impress (image_name : option string)
    (download_all force_download : bool) : M value :=
  current_dir ← Path_cwd;
  if truthy image_name then
    let name := default "" image_name in
    imgs ← global_images;
    if negb (Str.mem name imgs) then
      raise (ValueError ("Image '" +:+ name
               +:+ "' not found. Available images: "
               +:+ Str.repr_list imgs))
    else
      let image_path := current_dir // name in
      found ← Path_exists image_path;
      if negb found then
        raise (FileNotFoundError ("Image file not found: "
                 +:+ PathOps.to_str image_path))
      else mret (VPath image_path)
  else if download_all then
    paths ← new_list [];
    imgs ← global_images;
    for_each imgs (λ filename,
      let image_path := current_dir // filename in
      found ← Path_exists image_path;
      if found : bool then list_append paths (EPath image_path)
      else print ("Warning: " +:+ filename
                    +:+ " not found in current directory"));;
    mret (VList (RHeap paths))
  else
    mret (VList RGlobal).

Definition list_available_images : M value :=
  imgs ← global_images;
  copy ← new_list (EStr <$> imgs);
  mret (VList (RHeap copy)).

(** The dictionary built by [get_image_info]; one field per key. *)
Record info := mkInfo {
  total_images : nat;
  existing_images : nat;
  available_images : ref;
  existing_files : ref;
  current_directory : string;
  description : string
}.

Definition get_image_info : M info :=
  current_dir ← Path_cwd;
  imgs ← global_images;
  kept ← comprehension imgs (λ img, Path_exists (current_dir // img));
  existing ← new_list (EStr <$> kept);
  all_imgs ← global_images;
  mret {| total_images := length all_imgs;
          existing_images := length kept;
          available_images := RGlobal;
          existing_files := RHeap existing;
          current_directory := PathOps.to_str current_dir;
          description :=
            "ICT Impression Wave Verification Screenshots from 2025-08-17" |}.

(** ** What a call leaves behind *)

(** The names of [l] whose file exists under [cd]. *)
Definition present (e : env) (cd : Path) (l : list string) : list string :=
  filter (λ n, exists_ e (cd // n)) l.

(** The events of the loop of [load_impress] over [l]. *)
Definition scan_events (e : env) (cd : Path) (l : list string) : list event :=
  l ≫= λ n,
    EvExists (cd // n) ::
    if exists_ e (cd // n) then []
    else [EvPrint ("Warning: " +:+ n +:+ " not found in current directory")].

(** The states the module can be in: the one after loading it, and the
    ones its three functions lead to. *)
Inductive reachable : store → Prop :=
| reach_init : reachable module_init
| reach_load s e name da fd :
    reachable s → reachable (final (load_impress name da fd e s))
| reach_list s e :
    reachable s → reachable (final (list_available_images e s))
| reach_info s e :
    reachable s → reachable (final (get_image_info e s)).

(** The paths a trace tests for existence. *)
Definition checked_paths (t : list event) : list Path :=
  t ≫= λ ev, match ev with EvExists p => [p] | _ => [] end.

(** The content of the list object a call returned, read in the store it
    left. *)
Definition returned_list (o : outcome value) : option (list elem) :=
  match ret o with
  | inr (VList r) => deref (final o) r
  | _ => None
  end.

(** Two sample environments: a directory with none of the files, and one
    that holds the second screenshot only. *)
Definition empty_dir : env :=
  {| cwd := PathOps.parse "/data"; exists_ := λ _, false |}.

Definition one_file_dir : env :=
  {| cwd := PathOps.parse "/data";
     exists_ := λ p,
       bool_decide (p = PathOps.parse "/data"
                          // "스크린샷 2025-08-17 오후 5.52.20.png") |}.

(** The lines a trace prints. *)
Definition printed (t : list event) : list string :=
  t ≫= λ ev, match ev with EvPrint line => [line] | _ => [] end.

(** What a list handed out by the module may hold: names of the catalogue,
    or those names resolved under some directory, in the order of the
    catalogue. *)
Definition stored_ok (l : list elem) : Prop :=
  ∃ names, names `sublist_of` AVAILABLE_IMAGES
    ∧ (l = EStr <$> names ∨ ∃ cd, l = EPath ∘ PathOps.truediv cd <$> names).

(** ** The script run when the module is executed

    The block under [if __name__ == "__main__"] calls the three functions,
    asks for file sizes and catches what its two [try] blocks raise.  It
    runs in a monad of its own: its environment adds the file sizes, its
    trace adds the calls of [stat], and an exception is known by its
    [str], the only thing [except Exception as e] uses. *)

Record script_env := mkScriptEnv { fs : env; st_size : Path → nat }.

Inductive script_event :=
| Did (ev : event)
| EvStat (p : Path).      (* p.stat() *)

Record run (A : Type) := mkRun {
  out : list script_event;
  after : store;
  res : string + A
}.
Arguments mkRun {A} _ _ _.
Arguments out {A} _.
Arguments after {A} _.
Arguments res {A} _.

Definition Script (A : Type) : Type := script_env → store → run A.

#[global] Instance Script_ret : MRet Script :=
  λ A x _ s, mkRun [] s (inr x).

#[global] Instance Script_bind : MBind Script :=
  λ A B k m se s,
    let r := m se s in
    match res r with
    | inl text => mkRun (out r) (after r) (inl text)
    | inr a =>
        let r' := k a se (after r) in
        mkRun (out r ++ out r') (after r') (res r')
    end.

(** [str(e)] for the exceptions of the module's functions. *)
Definition exn_str (x : exn) : string :=
  match x with
  | ValueError msg => msg
  | FileNotFoundError msg => msg
  end.

(** A call of one of the module's functions from the script. *)
Definition call {A} (m : M A) : Script A :=
  λ se s,
    let o := m (fs se) s in
    mkRun (Did <$> trace o) (final o)
          (match ret o with
           | inl x => inl (exn_str x)
           | inr a => inr a
           end).

Definition throw {A} (text : string) : Script A :=
  λ _ s, mkRun [] s (inl text).

(** [try: body / except Exception as e: handler(str(e))]. *)
Definition try_except (body : Script unit) (handler : string → Script unit)
    : Script unit :=
  λ se s,
    let r := body se s in
    match res r with
    | inr _ => r
    | inl text =>
        let r' := handler text se (after r) in
        mkRun (out r ++ out r') (after r') (res r')
    end.

(** [p.stat().st_size]; a missing file makes [stat] raise
    [FileNotFoundError]. *)
Definition stat_size (p : Path) : Script nat :=
  λ se s,
    mkRun [EvStat p] s
          (if exists_ (fs se) p then inr (st_size se p)
           else inl ("[Errno 2] No such file or directory: "
                       +:+ Str.repr (PathOps.to_str p))).

(** The elements of a list object, as an iteration over it sees them. *)
Definition contents (r : ref) : Script (list elem) :=
  λ _ s, mkRun [] s (inr (default [] (deref s r))).

(** [for i, x in enumerate(l, start): body(i, x)]. *)
Fixpoint for_enumerate {A} (start : nat) (l : list A)
    (body : nat → A → Script unit) : Script unit :=
  match l with
  | [] => mret ()
  | x :: l' => body start x ≫= λ _, for_enumerate (S start) l' body
  end.

(** [p.name]: the last component, or the empty string. *)
Definition Path_name (p : Path) : string := default "" (last (tail p)).

(** [str(True)] and [str(False)]. *)
Definition bool_str (b : bool) : string := if b then "True" else "False".

(** [str(x)] and [repr(x)] for an element of a list. *)
Definition elem_str (x : elem) : string :=
  match x with
  | EStr s => s
  | EPath p => PathOps.to_str p
  end.

Definition elem_repr (x : elem) : string :=
  match x with
  | EStr s => Str.repr s
  | EPath p => "PosixPath(" +:+ Str.repr (PathOps.to_str p) +:+ ")"
  end.

(** The operations the script applies to what [load_impress] and
    [list_available_images] returned; each one is defined on a path or on a
    list only, and raises on the other. *)
Definition value_str (v : value) : Script string :=
  match v with
  | VPath p => mret (PathOps.to_str p)
  | VList r =>
      l ← contents r;
      mret ("[" +:+ Str.join ", " (elem_repr <$> l) +:+ "]")
  end.

Definition value_exists (v : value) : Script bool :=
  match v with
  | VPath p => call (Path_exists p)
  | VList _ => throw "'list' object has no attribute 'exists'"
  end.

Definition value_stat_size (v : value) : Script nat :=
  match v with
  | VPath p => stat_size p
  | VList _ => throw "'list' object has no attribute 'stat'"
  end.

Definition value_len (v : value) : Script nat :=
  match v with
  | VList r => l ← contents r; mret (length l)
  | VPath _ => throw "object of type 'PosixPath' has no len()"
  end.

Definition value_iter (v : value) : Script (list elem) :=
  match v with
  | VList r => contents r
  | VPath _ => throw "'PosixPath' object is not iterable"
  end.

Definition elem_name (x : elem) : Script string :=
  match x with
  | EPath p => mret (Path_name p)
  | EStr _ => throw "'str' object has no attribute 'name'"
  end.

Definition elem_stat_size (x : elem) : Script nat :=
  match x with
  | EPath p => stat_size p
  | EStr _ => throw "'str' object has no attribute 'stat'"
  end.

Definition say (line : string) : Script unit := call (print line).

(** A line that starts with a line feed, as in [print("\n1. ...")]. *)
Definition nl (text : string) : string := String "010" text.

(** The four parts of the script, named after its comments. *)

(** [# Test 1: List available images] *)
Definition test_list_images : Script unit :=
  say (nl "1. Available images:");;
  images ← call list_available_images;
  items ← value_iter images;
  for_enumerate 1 items (λ i img,
    say ("   " +:+ pretty i +:+ ". " +:+ elem_str img)).

(** [# Test 2: Get info] *)
Definition test_get_info : Script unit :=
  say (nl "2. Dataset info:");;
  info ← call get_image_info;
  say ("   Total images: " +:+ pretty (total_images info));;
  say ("   Existing images: " +:+ pretty (existing_images info));;
  say ("   Current directory: " +:+ current_directory info).

(** [# Test 3: Load specific image] *)
Definition test_load_specific : Script unit :=
  say (nl "3. Load specific image:");;
  try_except
    (image_path ← call (load_impress
                          (Some "스크린샷 2025-08-17 오후 5.49.14.png")
                          false false);
     shown ← value_str image_path;
     say ("   Loaded: " +:+ shown);;
     found ← value_exists image_path;
     say ("   File exists: " +:+ bool_str found);;
     size ← value_stat_size image_path;
     say ("   File size: " +:+ pretty size +:+ " bytes"))
    (λ e, say ("   Error: " +:+ e)).

(** [# Test 4: Load all images] *)
Definition test_load_all : Script unit :=
  say (nl "4. Load all images:");;
  try_except
    (all_images ← call (load_impress None true false);
     found ← value_len all_images;
     say ("   Found " +:+ pretty found +:+ " images:");;
     items ← value_iter all_images;
     for_enumerate 1 items (λ i img_path,
       name ← elem_name img_path;
       size ← elem_stat_size img_path;
       say ("   " +:+ pretty i +:+ ". " +:+ name
              +:+ " (" +:+ pretty size +:+ " bytes)")))
    (λ e, say ("   Error: " +:+ e)).

Definition main : Script unit :=
  say "=== ICT Impression Wave Verification Data Test ===";;
  test_list_images;;
  test_get_info;;
  test_load_specific;;
  test_load_all;;
  say (nl "=== Test completed ===").

(** The lines a run of the script prints. *)
Definition lines (t : list script_event) : list string :=
  t ≫= λ x, match x with Did (EvPrint line) => [line] | _ => [] end.

(** A directory with the first screenshot only, of 2048 bytes. *)
Definition first_file_env : script_env :=
  {| fs := {| cwd := PathOps.parse "/data";
              exists_ := λ p,
                bool_decide (p = PathOps.parse "/data"
                                   // "스크린샷 2025-08-17 오후 5.49.14.png") |};
     st_size := λ _, 2048 |}.

Definition empty_script_env : script_env :=
  {| fs := empty_dir; st_size := λ _, 0 |}.

(** The lines of a numbered listing: [f i x] for the elements [x] of [l],
    counted from [start]. *)
Fixpoint numbered {A} (f : nat → A → string) (start : nat) (l : list A)
    : list string :=
  match l with
  | [] => []
  | x :: l' => f start x :: numbered f (S start) l'
  end.

(** What the third part of the script prints. *)
Definition load_specific_lines (se : script_env) (s : store) : list string :=
  let name := "스크린샷 2025-08-17 오후 5.49.14.png" in
  let p := cwd (fs se) // name in
  if decide (name ∈ images s) then
    if exists_ (fs se) p then
      ["   Loaded: " +:+ PathOps.to_str p;
       "   File exists: True";
       "   File size: " +:+ pretty (st_size se p) +:+ " bytes"]
    else ["   Error: Image file not found: " +:+ PathOps.to_str p]
  else
    ["   Error: Image '" +:+ name +:+ "' not found. Available images: "
       +:+ Str.repr_list (images s)].

(** Everything the script prints when it starts in store [s]. *)
Definition script_output (se : script_env) (s : store) : list string :=
  let cd := cwd (fs se) in
  let kept := filter (λ n, exists_ (fs se) (cd // n)) (images s) in
  let missing := filter (λ n, ¬ exists_ (fs se) (cd // n)) (images s) in
  ["=== ICT Impression Wave Verification Data Test ===";
   nl "1. Available images:"]
  ++ numbered (λ i n, "   " +:+ pretty i +:+ ". " +:+ n) 1 (images s)
  ++ [nl "2. Dataset info:";
      "   Total images: " +:+ pretty (length (images s));
      "   Existing images: " +:+ pretty (length kept);
      "   Current directory: " +:+ PathOps.to_str cd;
      nl "3. Load specific image:"]
  ++ load_specific_lines se s
  ++ [nl "4. Load all images:"]
  ++ ((λ n, "Warning: " +:+ n +:+ " not found in current directory")
        <$> missing)
  ++ ["   Found " +:+ pretty (length kept) +:+ " images:"]
  ++ numbered (λ i n, "   " +:+ pretty i +:+ ". " +:+ Path_name (cd // n)
                        +:+ " (" +:+ pretty (st_size se (cd // n))
                        +:+ " bytes)") 1 kept
  ++ [nl "=== Test completed ==="].

(** ** The functions and the script when a call can fail

    Up to here [Path.cwd()], [Path.exists()], [stat()] and [print] always
    answer.  In Python each of them can raise: [os.getcwd] when the working
    directory is gone, [exists] on an error other than a missing file (a
    directory that may not be searched), [print] when the output cannot
    encode the text.  None of the three functions catches anything, so such
    an exception leaves them; the script catches what its two [try] blocks
    raise.  Module [Os] embeds the same code over an environment whose
    calls answer or raise. *)

Module Os.

(** An exception raised by a call: its class and its [str]. *)
Record exc := mkExc { exc_class : string; exc_text : string }.

#[global] Instance exc_eq_dec : EqDecision exc.
Proof. solve_decision. Defined.

(** What a computation raises: an exception of the module's own, or the
    one of a call. *)
Inductive raised := Own (x : exn) | Foreign (x : exc).

Definition raised_str (r : raised) : string :=
  match r with
  | Own x => exn_str x
  | Foreign x => exc_text x
  end.

(** Each call answers or raises; [os_print line] is [None] when the line is
    written. *)
Record env := mkEnv {
  os_cwd : exc + Path;
  os_exists : Path → exc + bool;
  os_print : string → option exc;
  os_stat_size : Path → exc + nat
}.

Record outcome (A : Type) := mkOutcome {
  trace : list script_event;
  final : store;
  ret : raised + A
}.
Arguments mkOutcome {A} _ _ _.
Arguments trace {A} _.
Arguments final {A} _.
Arguments ret {A} _.

Definition M (A : Type) : Type := env → store → outcome A.

#[global] Instance M_ret : MRet M :=
  λ A x _ s, mkOutcome [] s (inr x).

#[global] Instance M_bind : MBind M :=
  λ A B k m e s,
    let o := m e s in
    match ret o with
    | inl x => mkOutcome (trace o) (final o) (inl x)
    | inr a =>
        let o' := k a e (final o) in
        mkOutcome (trace o ++ trace o') (final o') (ret o')
    end.

Definition raise {A} (x : raised) : M A := λ _ s, mkOutcome [] s (inl x).

(** The result of a call that answers or raises. *)
Definition answer {A} (r : exc + A) : raised + A :=
  match r with
  | inl x => inl (Foreign x)
  | inr a => inr a
  end.

Definition Path_cwd : M Path :=
  λ e s, mkOutcome [Did EvCwd] s (answer (os_cwd e)).

Definition Path_exists (p : Path) : M bool :=
  λ e s, mkOutcome [Did (EvExists p)] s (answer (os_exists e p)).

Definition stat_size (p : Path) : M nat :=
  λ e s, mkOutcome [EvStat p] s (answer (os_stat_size e p)).

(** A line is recorded when it is written. *)
Definition print (line : string) : M unit :=
  λ e s,
    match os_print e line with
    | None => mkOutcome [Did (EvPrint line)] s (inr ())
    | Some x => mkOutcome [] s (inl (Foreign x))
    end.

Definition global_images : M (list string) :=
  λ _ s, mkOutcome [] s (inr (images s)).

Definition new_list (init : list elem) : M nat :=
  λ _ s, mkOutcome [] {| images := images s; heap := heap s ++ [init] |}
                   (inr (length (heap s))).

Definition list_append (a : nat) (x : elem) : M unit :=
  λ _ s, mkOutcome [] {| images := images s;
                         heap := alter (λ l, l ++ [x]) a (heap s) |}
                   (inr ()).

Definition contents (r : ref) : M (list elem) :=
  λ _ s, mkOutcome [] s (inr (default [] (deref s r))).

Fixpoint for_each {A} (l : list A) (body : A → M unit) : M unit :=
  match l with
  | [] => mret ()
  | x :: l' => body x ≫= λ _, for_each l' body
  end.

Fixpoint comprehension {A} (l : list A) (cond : A → M bool) : M (list A) :=
  match l with
  | [] => mret []
  | x :: l' =>
      b ← cond x;
      r ← comprehension l' cond;
      mret (if b : bool then x :: r else r)
  end.

Fixpoint for_enumerate {A} (start : nat) (l : list A)
    (body : nat → A → M unit) : M unit :=
  match l with
  | [] => mret ()
  | x :: l' => body start x ≫= λ _, for_enumerate (S start) l' body
  end.

(** [try: body / except Exception as e: handler(str(e))]. *)
Definition try_except (body : M unit) (handler : string → M unit) : M unit :=
  λ e s,
    let o := body e s in
    match ret o with
    | inr _ => o
    | inl x =>
        let o' := handler (raised_str x) e (final o) in
        mkOutcome (trace o ++ trace o') (final o') (ret o')
    end.

Definition load_impress (image_name : option string)
    (download_all force_download : bool) : M value :=
  current_dir ← Path_cwd;
  if truthy image_name then
    let name := default "" image_name in
    imgs ← global_images;
    if negb (Str.mem name imgs) then
      raise (Own (ValueError ("Image '" +:+ name
               +:+ "' not found. Available images: "
               +:+ Str.repr_list imgs)))
    else
      let image_path := current_dir // name in
      found ← Path_exists image_path;
      if negb found then
        raise (Own (FileNotFoundError ("Image file not found: "
                 +:+ PathOps.to_str image_path)))
      else mret (VPath image_path)
  else if download_all then
    paths ← new_list [];
    imgs ← global_images;
    for_each imgs (λ filename,
      let image_path := current_dir // filename in
      found ← Path_exists image_path;
      if found : bool then list_append paths (EPath image_path)
      else print ("Warning: " +:+ filename
                    +:+ " not found in current directory"));;
    mret (VList (RHeap paths))
  else
    mret (VList RGlobal).

Definition list_available_images : M value :=
  imgs ← global_images;
  copy ← new_list (EStr <$> imgs);
  mret (VList (RHeap copy)).

Definition get_image_info : M info :=
  current_dir ← Path_cwd;
  imgs ← global_images;
  kept ← comprehension imgs (λ img, Path_exists (current_dir // img));
  existing ← new_list (EStr <$> kept);
  all_imgs ← global_images;
  mret {| total_images := length all_imgs;
          existing_images := length kept;
          available_images := RGlobal;
          existing_files := RHeap existing;
          current_directory := PathOps.to_str current_dir;
          description :=
            "ICT Impression Wave Verification Screenshots from 2025-08-17" |}.

(** The script's uses of what the functions returned; a use that does not
    fit the kind of value raises as Python does. *)
Definition oops {A} (class text : string) : M A :=
  raise (Foreign (mkExc class text)).

Definition value_str (v : value) : M string :=
  match v with
  | VPath p => mret (PathOps.to_str p)
  | VList r =>
      l ← contents r;
      mret ("[" +:+ Str.join ", " (elem_repr <$> l) +:+ "]")
  end.

Definition value_exists (v : value) : M bool :=
  match v with
  | VPath p => Path_exists p
  | VList _ => oops "AttributeError" "'list' object has no attribute 'exists'"
  end.

Definition value_stat_size (v : value) : M nat :=
  match v with
  | VPath p => stat_size p
  | VList _ => oops "AttributeError" "'list' object has no attribute 'stat'"
  end.

Definition value_len (v : value) : M nat :=
  match v with
  | VList r => l ← contents r; mret (length l)
  | VPath _ => oops "TypeError" "object of type 'PosixPath' has no len()"
  end.

Definition value_iter (v : value) : M (list elem) :=
  match v with
  | VList r => contents r
  | VPath _ => oops "TypeError" "'PosixPath' object is not iterable"
  end.

Definition elem_name (x : elem) : M string :=
  match x with
  | EPath p => mret (Path_name p)
  | EStr _ => oops "AttributeError" "'str' object has no attribute 'name'"
  end.

Definition elem_stat_size (x : elem) : M nat :=
  match x with
  | EPath p => stat_size p
  | EStr _ => oops "AttributeError" "'str' object has no attribute 'stat'"
  end.

(** [# Test 1: List available images] *)
Definition test_list_images : M unit :=
  print (nl "1. Available images:");;
  images ← list_available_images;
  items ← value_iter images;
  for_enumerate 1 items (λ i img,
    print ("   " +:+ pretty i +:+ ". " +:+ elem_str img)).

(** [# Test 2: Get info] *)
Definition test_get_info : M unit :=
  print (nl "2. Dataset info:");;
  info ← get_image_info;
  print ("   Total images: " +:+ pretty (total_images info));;
  print ("   Existing images: " +:+ pretty (existing_images info));;
  print ("   Current directory: " +:+ current_directory info).

(** [# Test 3: Load specific image] *)
Definition test_load_specific : M unit :=
  print (nl "3. Load specific image:");;
  try_except
    (image_path ← load_impress (Some "스크린샷 2025-08-17 오후 5.49.14.png")
                               false false;
     shown ← value_str image_path;
     print ("   Loaded: " +:+ shown);;
     found ← value_exists image_path;
     print ("   File exists: " +:+ bool_str found);;
     size ← value_stat_size image_path;
     print ("   File size: " +:+ pretty size +:+ " bytes"))
    (λ e, print ("   Error: " +:+ e)).

(** [# Test 4: Load all images] *)
Definition test_load_all : M unit :=
  print (nl "4. Load all images:");;
  try_except
    (all_images ← load_impress None true false;
     found ← value_len all_images;
     print ("   Found " +:+ pretty found +:+ " images:");;
     items ← value_iter all_images;
     for_enumerate 1 items (λ i img_path,
       name ← elem_name img_path;
       size ← elem_stat_size img_path;
       print ("   " +:+ pretty i +:+ ". " +:+ name
                +:+ " (" +:+ pretty size +:+ " bytes)")))
    (λ e, print ("   Error: " +:+ e)).

Definition main : M unit :=
  print "=== ICT Impression Wave Verification Data Test ===";;
  test_list_images;;
  test_get_info;;
  test_load_specific;;
  test_load_all;;
  print (nl "=== Test completed ===").

End Os.

(** An environment of [Os] in which every call answers as [se] does. *)
Definition answering (se : script_env) : Os.env :=
  {| Os.os_cwd := inr (cwd (fs se));
     Os.os_exists := λ p, inr (exists_ (fs se) p);
     Os.os_print := λ _, None;
     Os.os_stat_size := λ p,
       if exists_ (fs se) p then inr (st_size se p)
       else inl (Os.mkExc "FileNotFoundError"
                   ("[Errno 2] No such file or directory: "
                      +:+ Str.repr (PathOps.to_str p))) |}.

(** The answers of [oe] as an environment of the first kind, for a working
    directory [cd]; a test that raises counts as not found. *)
Definition answers_of (oe : Os.env) (cd : Path) : env :=
  {| cwd := cd;
     exists_ := λ p, match Os.os_exists oe p with
                     | inr b => b
                     | inl _ => false
                     end |}.

(** An outcome of the first kind, read as one of [Os]. *)
Definition os_outcome {A} (o : outcome A) : Os.outcome A :=
  Os.mkOutcome (Did <$> trace o) (final o)
    (match ret o with
     | inl x => inl (Os.Own x)
     | inr a => inr a
     end).

(** Three situations in which a call raises. *)

(** The working directory has been removed. *)
Definition removed_dir : Os.env :=
  {| Os.os_cwd := inl (Os.mkExc "FileNotFoundError"
                         "[Errno 2] No such file or directory");
     Os.os_exists := λ _, inr false;
     Os.os_print := λ _, None;
     Os.os_stat_size := λ _, inr 0 |}.

(** The working directory may not be searched: every test in it raises. *)
Definition unsearchable_dir : Os.env :=
  {| Os.os_cwd := inr (PathOps.parse "/data");
     Os.os_exists := λ p,
       inl (Os.mkExc "PermissionError"
              ("[Errno 13] Permission denied: "
                 +:+ Str.repr (PathOps.to_str p)));
     Os.os_print := λ _, None;
     Os.os_stat_size := λ _, inr 0 |}.

(** An output that encodes ASCII only.  Writing a text with a character
    beyond ASCII raises [UnicodeEncodeError]; its [str] names the first run
    of such characters by its positions, counted in characters, or the one
    character of that run by its escape. *)
Definition ascii_only (text : string) : bool :=
  forallb (λ a, (N_of_ascii a <? 128)%N) (String.list_ascii_of_string text).

Fixpoint take_while {A} (f : A → bool) (l : list A) : list A :=
  match l with
  | x :: l' => if f x then x :: take_while f l' else []
  | [] => []
  end.

Fixpoint drop_while {A} (f : A → bool) (l : list A) : list A :=
  match l with
  | x :: l' => if f x then drop_while f l' else l
  | [] => []
  end.

Fixpoint hex (width : nat) (n : N) : string :=
  match width with
  | 0 => ""
  | S w => hex w (n / 16) +:+ String (Str.hex_digit (n mod 16)) ""
  end.

(** The character that a lead byte and its continuation bytes encode. *)
Definition code_point (bytes : list N) : N :=
  match bytes with
  | [] => 0
  | b :: rest =>
      let lead := if b <? 224 then b mod 32
                  else if b <? 240 then b mod 16
                  else b mod 8 in
      fold_left (λ acc c, acc * 64 + c mod 64) rest lead
  end%N.

Definition char_escape (c : N) : string :=
  if (c <? 256)%N then "\x" +:+ hex 2 c
  else if (c <? 65536)%N then "\u" +:+ hex 4 c
  else "\U" +:+ hex 8 c.

Definition ascii_error_text (text : string) : string :=
  let bytes := N_of_ascii <$> String.list_ascii_of_string text in
  let start := length (take_while (λ b, b <? 128)%N bytes) in
  let run := take_while (λ b, 128 <=? b)%N
               (drop_while (λ b, b <? 128)%N bytes) in
  let chars := length (filter (λ b, 192 <=? b)%N run) in
  if Nat.eqb chars 1 then
    "'ascii' codec can't encode character '" +:+ char_escape (code_point run)
      +:+ "' in position " +:+ pretty start
      +:+ ": ordinal not in range(128)"
  else
    "'ascii' codec can't encode characters in position " +:+ pretty start
      +:+ "-" +:+ pretty (start + chars - 1)
      +:+ ": ordinal not in range(128)".

(** An empty directory whose output encodes ASCII only. *)
Definition ascii_stdout_empty_dir : Os.env :=
  {| Os.os_cwd := inr (PathOps.parse "/data");
     Os.os_exists := λ _, inr false;
     Os.os_print := λ text,
       if ascii_only text then None
       else Some (Os.mkExc "UnicodeEncodeError" (ascii_error_text text));
     Os.os_stat_size := λ _, inr 0 |}.

(** The tests of the entries of [l] under [cd] answer. *)
Definition tests_answer (oe : Os.env) (cd : Path) (l : list string) : Prop :=
  ∀ n, n ∈ l → ∃ b, Os.os_exists oe (cd // n) = inr b.

(** The warning of each missing entry of [l] is written. *)
Definition warnings_written (oe : Os.env) (cd : Path) (l : list string)
    : Prop :=
  ∀ n, n ∈ l → Os.os_exists oe (cd // n) = inr false →
       Os.os_print oe ("Warning: " +:+ n +:+ " not found in current directory")
       = None.

(** [stat] answers on every entry of [l] that exists under [cd]. *)
Definition sizes_answer (oe : Os.env) (cd : Path) (l : list string) : Prop :=
  ∀ n, n ∈ l → Os.os_exists oe (cd // n) = inr true →
       ∃ k, Os.os_stat_size oe (cd // n) = inr k.

(** The answers of [oe], sizes included. *)
Definition script_answers_of (oe : Os.env) (cd : Path) : script_env :=
  {| fs := answers_of oe cd;
     st_size := λ p, match Os.os_stat_size oe p with
                     | inr k => k
                     | inl _ => 0
                     end |}.

(** ** Lemmas on strings *)

Lemma mem_elem_of x l : Str.mem x l = true ↔ x ∈ l.
Proof.
  induction l as [|y l IH]; simpl.
  - split; [done | by intros ?%elem_of_nil].
  - rewrite elem_of_cons. destruct (String.eqb_spec x y) as [->|Hne].
    + by split; [left|].
    + rewrite IH. split; [by right | by intros [?|?]].
Qed.

Lemma mem_not_elem_of x l : Str.mem x l = false ↔ x ∉ l.
Proof.
  rewrite <-mem_elem_of. destruct (Str.mem x l); split; congruence.
Qed.

Lemma truthy_nonempty s : s ≠ "" ↔ Str.truthy s = true.
Proof. destruct s; simpl; split; congruence. Qed.

(** ** Lemmas on the loops *)

Lemma bind_run {A B} (m : M A) (k : A → M B) e s :
  (m ≫= k) e s =
    match ret (m e s) with
    | inl x => mkOutcome (trace (m e s)) (final (m e s)) (inl x)
    | inr a =>
        mkOutcome (trace (m e s) ++ trace (k a e (final (m e s))))
                  (final (k a e (final (m e s))))
                  (ret (k a e (final (m e s))))
    end.
Proof. reflexivity. Qed.

(** One step of a computation: split a bind and run the primitive in front. *)
Ltac run_bind :=
  rewrite bind_run;
  cbn [Path_cwd Path_exists global_images new_list list_append print
       ret trace final images heap].

Lemma alter_top {A} (f : A → A) (h : list A) (x : A) :
  alter f (length h) (h ++ [x]) = h ++ [f x].
Proof. induction h as [|y h IH]; [done | by cbn; f_equal]. Qed.

Section Loops.
Context (e : env) (cd : Path).

Lemma present_cons n l :
  present e cd (n :: l) =
    if exists_ e (cd // n) then n :: present e cd l else present e cd l.
Proof.
  unfold present. destruct (exists_ e (cd // n)) eqn:E.
  - rewrite filter_cons_True; [done | by rewrite E].
  - rewrite filter_cons_False; [done | by rewrite E; intros []].
Qed.

(** The loop of [load_impress] appends to the list at the top of the heap
    the paths of the present names, in order, and nothing else. *)
Lemma scan_outcome l s h acc :
  heap s = h ++ [acc] →
  for_each l (λ filename,
      found ← Path_exists (cd // filename);
      if found : bool then list_append (length h) (EPath (cd // filename))
      else print ("Warning: " +:+ filename
                    +:+ " not found in current directory")) e s
  = mkOutcome (scan_events e cd l)
      {| images := images s;
         heap := h ++ [acc ++ (EPath ∘ PathOps.truediv cd <$> present e cd l)] |}
      (inr ()).
Proof.
  revert s acc. induction l as [|n l IH]; intros s acc Hs.
  - cbn. rewrite app_nil_r, <-Hs. by destruct s.
  - rewrite present_cons. simpl for_each.
    rewrite !bind_run. cbn [Path_exists ret trace final].
    destruct (exists_ e (cd // n)) eqn:E.
    + cbn [list_append print ret trace final images heap].
      rewrite (IH _ (acc ++ [EPath (cd // n)])).
      * cbn. rewrite E. by rewrite <-(assoc_L (++)).
      * cbn. by rewrite Hs, alter_top.
    + cbn [list_append print ret trace final images heap].
      rewrite (IH _ acc Hs). cbn. by rewrite E.
Qed.

(** The comprehension of [get_image_info] tests every name once, in
    order, and keeps the present ones; the store is not touched. *)
Lemma comprehension_outcome l s :
  comprehension l (λ img, Path_exists (cd // img)) e s
  = mkOutcome ((λ n, EvExists (cd // n)) <$> l) s (inr (present e cd l)).
Proof.
  induction l as [|n l IH].
  - done.
  - rewrite present_cons. simpl comprehension.
    rewrite bind_run. cbn [Path_exists ret trace final].
    rewrite bind_run, IH. cbn. rewrite app_nil_r.
    by destruct (exists_ e (cd // n)).
Qed.

Lemma present_sublist l : present e cd l `sublist_of` l.
Proof. apply sublist_filter. Qed.

Lemma elem_of_present n l :
  n ∈ present e cd l ↔ n ∈ l ∧ exists_ e (cd // n) = true.
Proof.
  unfold present. rewrite list_elem_of_filter, Is_true_true.
  split; intros [??]; done.
Qed.

End Loops.

(** ** The outcome of each function *)

Section Outcomes.
Context (e : env) (s : store).

Lemma load_default_outcome name fd :
  truthy name = false →
  load_impress name false fd e s = mkOutcome [EvCwd] s (inr (VList RGlobal)).
Proof. intros H. unfold load_impress. rewrite bind_run, H. done. Qed.

Lemma load_all_outcome name fd :
  truthy name = false →
  load_impress name true fd e s
  = mkOutcome (EvCwd :: scan_events e (cwd e) (images s))
      {| images := images s;
         heap := heap s ++
           [EPath ∘ PathOps.truediv (cwd e) <$> present e (cwd e) (images s)] |}
      (inr (VList (RHeap (length (heap s))))).
Proof.
  intros H. unfold load_impress. rewrite bind_run, H.
  cbn [Path_cwd ret trace final]. cbv zeta.
  do 3 run_bind.
  rewrite (scan_outcome e (cwd e) (images s) _ (heap s) []) by done.
  cbn. by rewrite app_nil_r.
Qed.

Lemma load_unknown_outcome name da fd :
  name ≠ "" → name ∉ images s →
  load_impress (Some name) da fd e s
  = mkOutcome [EvCwd] s
      (inl (ValueError ("Image '" +:+ name
              +:+ "' not found. Available images: "
              +:+ Str.repr_list (images s)))).
Proof.
  intros Hne Hin. apply truthy_nonempty in Hne as T.
  apply mem_not_elem_of in Hin.
  unfold load_impress. rewrite bind_run. cbn -[String.append].
  rewrite T. rewrite bind_run. cbn -[String.append]. by rewrite Hin.
Qed.

Lemma load_known_outcome name da fd :
  name ≠ "" → name ∈ images s →
  load_impress (Some name) da fd e s
  = mkOutcome [EvCwd; EvExists (cwd e // name)] s
      (if exists_ e (cwd e // name) then inr (VPath (cwd e // name))
       else inl (FileNotFoundError ("Image file not found: "
                   +:+ PathOps.to_str (cwd e // name)))).
Proof.
  intros Hne Hin. apply truthy_nonempty in Hne as T.
  apply mem_elem_of in Hin.
  unfold load_impress. rewrite bind_run. cbn -[String.append].
  rewrite T. rewrite bind_run. cbn -[String.append]. rewrite Hin.
  cbn [negb]. run_bind. by destruct (exists_ e (cwd e // name)).
Qed.

Lemma list_available_images_outcome :
  list_available_images e s
  = mkOutcome []
      {| images := images s; heap := heap s ++ [EStr <$> images s] |}
      (inr (VList (RHeap (length (heap s))))).
Proof. reflexivity. Qed.

Lemma get_image_info_outcome :
  get_image_info e s
  = mkOutcome (EvCwd :: ((λ n, EvExists (cwd e // n)) <$> images s))
      {| images := images s;
         heap := heap s ++ [EStr <$> present e (cwd e) (images s)] |}
      (inr {| total_images := length (images s);
              existing_images := length (present e (cwd e) (images s));
              available_images := RGlobal;
              existing_files := RHeap (length (heap s));
              current_directory := PathOps.to_str (cwd e);
              description :=
                "ICT Impression Wave Verification Screenshots from 2025-08-17" |}).
Proof.
  unfold get_image_info. do 3 run_bind.
  rewrite comprehension_outcome. cbn. by rewrite app_nil_r.
Qed.

Lemma load_impress_images name da fd :
  images (final (load_impress name da fd e s)) = images s.
Proof.
  destruct (truthy name) eqn:T.
  - destruct name as [name|]; [|done].
    apply truthy_nonempty in T.
    destruct (decide (name ∈ images s)).
    + by rewrite load_known_outcome.
    + by rewrite load_unknown_outcome.
  - destruct da.
    + by rewrite load_all_outcome.
    + by rewrite load_default_outcome.
Qed.

End Outcomes.

(** ** The functions on a directory holding one of the files *)

Example load_all_one_file :
  returned_list (load_impress None true false one_file_dir module_init)
  = Some [EPath {| root := "/";
                   tail := ["data"; "스크린샷 2025-08-17 오후 5.52.20.png"] |}].
Proof. vm_compute. reflexivity. Qed.

Example load_all_one_file_warnings :
  length (trace (load_impress None true false one_file_dir module_init))
  = 1 + 9 + 8.
Proof. vm_compute. reflexivity. Qed.

Example info_one_file :
  ∃ i, ret (get_image_info one_file_dir module_init) = inr i
       ∧ total_images i = 9 ∧ existing_images i = 1
       ∧ current_directory i = "/data".
Proof.
  rewrite get_image_info_outcome. eexists. split; [reflexivity|].
  cbn [total_images existing_images current_directory].
  split_and!; vm_compute; reflexivity.
Qed.

(** [load_impress()] hands out the global list itself,
    [list_available_images()] a copy of it. *)
Example alias_and_copy :
  ret (load_impress None false false empty_dir module_init)
  = inr (VList RGlobal)
  ∧ ret (list_available_images empty_dir module_init)
    = inr (VList (RHeap 0)).
Proof. split; vm_compute; reflexivity. Qed.

Lemma reachable_images s : reachable s → images s = AVAILABLE_IMAGES.
Proof.
  induction 1 as [|s e name da fd _ IH|s e _ IH|s e _ IH].
  - done.
  - by rewrite load_impress_images.
  - by rewrite list_available_images_outcome.
  - by rewrite get_image_info_outcome.
Qed.

(** ** Occurrences in strings *)

Lemma str_app_assoc (a b c : string) : (a +:+ b) +:+ c = a +:+ (b +:+ c).
Proof.
  induction a as [|x a IH]; [done|].
  change (String x ((a +:+ b) +:+ c) = String x (a +:+ (b +:+ c))).
  by rewrite IH.
Qed.

Lemma str_app_nil_r (a : string) : a +:+ "" = a.
Proof.
  induction a as [|x a IH]; [done|].
  change (String x (a +:+ "") = String x a). by rewrite IH.
Qed.

Lemma occurs_in_refl s : Str.occurs_in s s.
Proof. exists "", "". by rewrite str_app_nil_r. Qed.

Lemma occurs_in_app_l n p s : Str.occurs_in n s → Str.occurs_in n (p +:+ s).
Proof.
  intros (pre & post & ->). exists (p +:+ pre), post.
  by rewrite str_app_assoc.
Qed.

Lemma occurs_in_app_r n p s : Str.occurs_in n s → Str.occurs_in n (s +:+ p).
Proof.
  intros (pre & post & ->). exists pre, (post +:+ p).
  by rewrite !str_app_assoc.
Qed.

Lemma occurs_in_trans n m s :
  Str.occurs_in n m → Str.occurs_in m s → Str.occurs_in n s.
Proof.
  intros Hnm (pre & post & ->).
  by apply occurs_in_app_l, occurs_in_app_r.
Qed.

Lemma join_occurs sep x l : x ∈ l → Str.occurs_in x (Str.join sep l).
Proof.
  induction l as [|y l IH]; [by intros ?%elem_of_nil|].
  intros [->|Hx]%elem_of_cons.
  - destruct l; [apply occurs_in_refl|].
    apply occurs_in_app_r, occurs_in_refl.
  - destruct l as [|z l]; [by apply elem_of_nil in Hx|].
    change (Str.occurs_in x (y +:+ sep +:+ Str.join sep (z :: l))).
    by apply occurs_in_app_l, occurs_in_app_l, IH.
Qed.

Lemma repr_list_occurs x l :
  x ∈ l → Str.occurs_in (Str.repr x) (Str.repr_list l).
Proof.
  intros Hx. unfold Str.repr_list.
  apply occurs_in_app_l, occurs_in_app_r, join_occurs.
  by apply list_elem_of_fmap_2.
Qed.

(** ** Facts on the names of the catalogue *)

(** None of the nine names needs an escape: its [repr] is the name between
    single quotes. *)
Lemma catalog_repr n :
  n ∈ AVAILABLE_IMAGES → Str.repr n = "'" +:+ n +:+ "'".
Proof.
  revert n. apply Forall_forall.
  repeat (apply Forall_cons; split; [vm_compute; reflexivity|]).
  apply Forall_nil_2.
Qed.

(** Each of them is one path component, and none is empty. *)
Lemma catalog_component n :
  n ∈ AVAILABLE_IMAGES →
  n ≠ "" ∧ Str.starts_with "/" n = false ∧ PathOps.components n = [n].
Proof.
  revert n. apply Forall_forall.
  repeat (apply Forall_cons; split; [by vm_compute|]).
  apply Forall_nil_2.
Qed.

Lemma catalog_truediv p n :
  n ∈ AVAILABLE_IMAGES →
  p // n = {| root := root p; tail := tail p ++ [n] |}.
Proof.
  intros (_ & Hs & Hc)%catalog_component.
  unfold PathOps.truediv. by rewrite Hs, Hc.
Qed.

Lemma catalog_occurs_in_repr n :
  n ∈ AVAILABLE_IMAGES →
  Str.occurs_in n (Str.repr_list AVAILABLE_IMAGES).
Proof.
  intros Hn. eapply occurs_in_trans; [|by apply repr_list_occurs].
  rewrite (catalog_repr n Hn). by exists "'", "'".
Qed.

Lemma lookup_top {A} (h : list A) (x : A) : (h ++ [x]) !! length h = Some x.
Proof. by rewrite list_lookup_middle. Qed.

(** ** Looking up one name *)




(** C2: for every name of the catalogue whose file exists under the
    working directory, [load_impress] returns the path [cwd / name], which
    is the working directory extended by the one component [name]. *)
Theorem load_impress_present_name name da fd e s :
  reachable s → name ∈ AVAILABLE_IMAGES → exists_ e (cwd e // name) = true →
  ret (load_impress (Some name) da fd e s) = inr (VPath (cwd e // name))
  ∧ cwd e // name = {| root := root (cwd e); tail := tail (cwd e) ++ [name] |}.
Proof.
  intros Hs Hin Hex. pose proof (reachable_images s Hs) as Himg.
  destruct (catalog_component name Hin) as (Hne & _).
  rewrite load_known_outcome by (by rewrite ?Himg).
  cbn [ret]. rewrite Hex. split; [done|]. by apply catalog_truediv.
Qed.

Lemma load_impress_present_name_witness :
  let name := "스크린샷 2025-08-17 오후 5.52.20.png" in
  reachable module_init ∧ name ∈ AVAILABLE_IMAGES
  ∧ exists_ one_file_dir (cwd one_file_dir // name) = true
  ∧ ret (load_impress (Some name) false false one_file_dir module_init)
    = inr (VPath (cwd one_file_dir // name))
  ∧ cwd one_file_dir // name
    = {| root := root (cwd one_file_dir);
         tail := tail (cwd one_file_dir) ++ [name] |}.
Proof.
  intros name.
  assert (Hin : name ∈ AVAILABLE_IMAGES) by (apply mem_elem_of; reflexivity).
  assert (Hex : exists_ one_file_dir (cwd one_file_dir // name) = true)
    by reflexivity.
  split_and!; [apply reach_init | exact Hin | exact Hex |
    apply (load_impress_present_name name false false one_file_dir module_init
             reach_init Hin Hex) ..].
Defined.

(** C3: for every name of the catalogue whose file does not exist under
    the working directory, [load_impress] raises [FileNotFoundError]. *)
Theorem load_impress_absent_name name da fd e s :
  reachable s → name ∈ AVAILABLE_IMAGES → exists_ e (cwd e // name) = false →
  ret (load_impress (Some name) da fd e s)
  = inl (FileNotFoundError ("Image file not found: "
           +:+ PathOps.to_str (cwd e // name))).
Proof.
  intros Hs Hin Hex. pose proof (reachable_images s Hs) as Himg.
  destruct (catalog_component name Hin) as (Hne & _).
  rewrite load_known_outcome by (by rewrite ?Himg).
  cbn [ret]. by rewrite Hex.
Qed.

Lemma load_impress_absent_name_witness :
  let name := "스크린샷 2025-08-17 오후 5.53.59.png" in
  reachable module_init ∧ name ∈ AVAILABLE_IMAGES
  ∧ exists_ one_file_dir (cwd one_file_dir // name) = false
  ∧ ret (load_impress (Some name) false false one_file_dir module_init)
    = inl (FileNotFoundError ("Image file not found: "
             +:+ PathOps.to_str (cwd one_file_dir // name))).
Proof.
  intros name.
  assert (Hin : name ∈ AVAILABLE_IMAGES) by (apply mem_elem_of; reflexivity).
  assert (Hex : exists_ one_file_dir (cwd one_file_dir // name) = false)
    by reflexivity.
  split_and!; [apply reach_init | exact Hin | exact Hex |].
  exact (load_impress_absent_name name false false one_file_dir module_init
           reach_init Hin Hex).
Defined.

(** ** Describing the catalogue *)

(** C5: in the record built by [get_image_info], the count of existing
    files is the length of the list of existing files and is at most the
    total, the total is the length of the catalogue, and every existing
    file is a name of the catalogue. *)
Theorem get_image_info_counts e s :
  let o := get_image_info e s in
  ∃ i kept,
    ret o = inr i
    ∧ deref (final o) (existing_files i) = Some (EStr <$> kept)
    ∧ deref (final o) (available_images i) = Some (EStr <$> images s)
    ∧ existing_images i = length kept
    ∧ existing_images i ≤ total_images i
    ∧ total_images i = length (images s)
    ∧ ∀ n, n ∈ kept → n ∈ images s.
Proof.
  intros o. subst o. rewrite get_image_info_outcome.
  eexists _, (present e (cwd e) (images s)).
  split; [done|].
  cbn [final deref heap images existing_files available_images
       existing_images total_images].
  rewrite lookup_top. split_and!; try done.
  - apply sublist_length, present_sublist.
  - intros n Hn. by apply elem_of_present in Hn as [? _].
Qed.

Lemma get_image_info_counts_witness :
  ∃ i kept,
    ret (get_image_info one_file_dir module_init) = inr i
    ∧ deref (final (get_image_info one_file_dir module_init))
            (existing_files i) = Some (EStr <$> kept)
    ∧ deref (final (get_image_info one_file_dir module_init))
            (available_images i) = Some (EStr <$> images module_init)
    ∧ existing_images i = length kept
    ∧ existing_images i ≤ total_images i
    ∧ total_images i = length (images module_init)
    ∧ ∀ n, n ∈ kept → n ∈ images module_init.
Proof. exact (get_image_info_counts one_file_dir module_init). Defined.

(** ** Listing the catalogue *)

(** C6: [list_available_images] returns a new list with the nine names of
    the catalogue in their order; it reads no working directory, tests no
    file and prints nothing, and any two calls return lists with the same
    content. *)
Theorem list_available_images_fixed e s :
  reachable s →
  let o := list_available_images e s in
  ∃ l,
    returned_list o = Some l
    ∧ l = EStr <$> AVAILABLE_IMAGES
    ∧ length l = 9
    ∧ ret o = inr (VList (RHeap (length (heap s))))
    ∧ trace o = []
    ∧ ∀ e' s', reachable s' →
        returned_list (list_available_images e' s') = returned_list o.
Proof.
  assert (Hlist : ∀ e s, reachable s →
    returned_list (list_available_images e s)
    = Some (EStr <$> AVAILABLE_IMAGES)).
  { clear. intros e s Hs. rewrite list_available_images_outcome.
    unfold returned_list. cbn [ret final deref heap].
    by rewrite lookup_top, (reachable_images s Hs). }
  intros Hs o. subst o. exists (EStr <$> AVAILABLE_IMAGES).
  split_and!; [by apply Hlist | done | done | done | done |].
  intros e' s' Hs'. by rewrite !Hlist.
Qed.

Lemma list_available_images_fixed_witness :
  reachable module_init
  ∧ ∃ l,
      returned_list (list_available_images empty_dir module_init) = Some l
      ∧ l = EStr <$> AVAILABLE_IMAGES
      ∧ length l = 9
      ∧ ret (list_available_images empty_dir module_init)
        = inr (VList (RHeap 0))
      ∧ trace (list_available_images empty_dir module_init) = []
      ∧ ∀ e' s', reachable s' →
          returned_list (list_available_images e' s')
          = returned_list (list_available_images empty_dir module_init).
Proof.
  split; [apply reach_init|].
  exact (list_available_images_fixed empty_dir module_init reach_init).
Defined.

(** ** The unused parameter *)

(** C7: [force_download] has no effect: two calls that differ in it only
    have the same trace, leave the same store and return or raise the
    same. *)
Theorem force_download_unused name da fd fd' e s :
  load_impress name da fd e s = load_impress name da fd' e s.
Proof. reflexivity. Qed.

(** ** The catalogue is never written *)

(** C9: none of [load_impress], [list_available_images] and
    [get_image_info] changes the global list: its content after the call is
    its content before the call, whatever the arguments and whether the call
    returns or raises. *)
Theorem catalog_unchanged e s :
  (∀ name da fd, images (final (load_impress name da fd e s)) = images s)
  ∧ images (final (list_available_images e s)) = images s
  ∧ images (final (get_image_info e s)) = images s.
Proof.
  split_and!.
  - intros name da fd. apply load_impress_images.
  - by rewrite list_available_images_outcome.
  - by rewrite get_image_info_outcome.
Qed.

(** * Further properties of the three functions *)

(** ** Lemmas on traces *)

Lemma checked_paths_cons ev t :
  checked_paths (ev :: t)
  = match ev with EvExists p => [p] | _ => [] end ++ checked_paths t.
Proof. reflexivity. Qed.

Lemma checked_paths_app t1 t2 :
  checked_paths (t1 ++ t2) = checked_paths t1 ++ checked_paths t2.
Proof. apply bind_app. Qed.

Lemma printed_app t1 t2 : printed (t1 ++ t2) = printed t1 ++ printed t2.
Proof. apply bind_app. Qed.

Lemma elem_of_printed line t : line ∈ printed t ↔ EvPrint line ∈ t.
Proof.
  unfold printed. rewrite list_elem_of_bind. split.
  - intros (ev & Hline & Hev). destruct ev; try by apply elem_of_nil in Hline.
    by apply list_elem_of_singleton in Hline as ->.
  - intros Hev. exists (EvPrint line). split; [by left | done].
Qed.

Section ScanTraces.
Context (e : env) (cd : Path).

Lemma scan_events_cons n l :
  scan_events e cd (n :: l)
  = EvExists (cd // n)
      :: (if exists_ e (cd // n) then []
          else [EvPrint ("Warning: " +:+ n
                           +:+ " not found in current directory")])
      ++ scan_events e cd l.
Proof. reflexivity. Qed.

Lemma checked_paths_scan l :
  checked_paths (scan_events e cd l) = PathOps.truediv cd <$> l.
Proof.
  induction l as [|n l IH]; [done|].
  rewrite scan_events_cons, checked_paths_cons, checked_paths_app, IH.
  by destruct (exists_ e (cd // n)).
Qed.

Lemma printed_scan l :
  printed (scan_events e cd l)
  = (λ n, "Warning: " +:+ n +:+ " not found in current directory")
      <$> filter (λ n, ¬ exists_ e (cd // n)) l.
Proof.
  induction l as [|n l IH]; [done|].
  rewrite scan_events_cons. change (printed (?x :: ?t)) with (printed t).
  rewrite printed_app, IH. destruct (exists_ e (cd // n)) eqn:E.
  - rewrite filter_cons_False; [done | by rewrite E; intros H; apply H].
  - rewrite filter_cons_True; [done | by rewrite E; intros []].
Qed.

Lemma checked_paths_tests l :
  checked_paths ((λ n, EvExists (cd // n)) <$> l) = PathOps.truediv cd <$> l.
Proof. induction l as [|n l IH]; [done|]. cbn. by rewrite <-IH. Qed.

Lemma printed_tests l : printed ((λ n, EvExists (cd // n)) <$> l) = [].
Proof. by induction l. Qed.

Lemma present_absent_length l :
  length (present e cd l) + length (filter (λ n, ¬ exists_ e (cd // n)) l)
  = length l.
Proof.
  induction l as [|n l IH]; [done|].
  rewrite present_cons. destruct (exists_ e (cd // n)) eqn:E.
  - rewrite filter_cons_False by (by rewrite E; intros H; apply H).
    cbn. by rewrite IH.
  - rewrite filter_cons_True by (by rewrite E; intros []).
    cbn. rewrite <-IH. lia.
Qed.

End ScanTraces.

(** ** One name: which result, and at what cost *)



(** X2: a call with a non-empty name leaves the store as it was and prints
    nothing; it tests the one path [cwd / name] when the name is in the
    catalogue and no path at all when it is not, so the membership test
    comes before any access to a file. *)
Theorem load_impress_one_name_effects name da fd e s :
  name ≠ "" →
  let o := load_impress (Some name) da fd e s in
  final o = s
  ∧ printed (trace o) = []
  ∧ checked_paths (trace o)
    = if decide (name ∈ images s) then [cwd e // name] else [].
Proof.
  intros Hne o. subst o. destruct (decide (name ∈ images s)) as [Hin|Hin].
  - by rewrite load_known_outcome.
  - by rewrite load_unknown_outcome.
Qed.

Lemma load_impress_one_name_effects_witness :
  "../secret" ≠ ""
  ∧ final (load_impress (Some "../secret") false false one_file_dir
             module_init) = module_init
  ∧ printed (trace (load_impress (Some "../secret") false false one_file_dir
                      module_init)) = []
  ∧ checked_paths (trace (load_impress (Some "../secret") false false
                            one_file_dir module_init))
    = if decide ("../secret" ∈ images module_init)
      then [cwd one_file_dir // "../secret"] else [].
Proof.
  assert (Hne : "../secret" ≠ "") by discriminate.
  split; [exact Hne|].
  exact (load_impress_one_name_effects "../secret" false false one_file_dir
           module_init Hne).
Defined.

(** X3: a non-empty name takes precedence over [download_all]: the call
    behaves the same whether [download_all] is set or not. *)
Theorem load_impress_name_precedence name da da' fd fd' e s :
  name ≠ "" →
  load_impress (Some name) da fd e s = load_impress (Some name) da' fd' e s.
Proof.
  intros Hne. destruct (decide (name ∈ images s)) as [Hin|Hin].
  - by rewrite !load_known_outcome.
  - by rewrite !load_unknown_outcome.
Qed.

Lemma load_impress_name_precedence_witness :
  "c.png" ≠ ""
  ∧ load_impress (Some "c.png") true false empty_dir module_init
    = load_impress (Some "c.png") false false empty_dir module_init.
Proof.
  assert (Hne : "c.png" ≠ "") by discriminate.
  split; [exact Hne|].
  exact (load_impress_name_precedence "c.png" true false false false
           empty_dir module_init Hne).
Defined.

(** X4: whatever the arguments, a path returned by [load_impress] existed
    when it was tested, is named by an entry of the catalogue, and is the
    working directory extended by that one component: no argument makes the
    function return a path outside the working directory. *)
Theorem load_impress_returned_path image_name da fd e s p :
  reachable s →
  ret (load_impress image_name da fd e s) = inr (VPath p) →
  ∃ name,
    image_name = Some name
    ∧ name ∈ AVAILABLE_IMAGES
    ∧ p = {| root := root (cwd e); tail := tail (cwd e) ++ [name] |}
    ∧ exists_ e p = true.
Proof.
  intros Hs Hret. pose proof (reachable_images s Hs) as Himg.
  destruct (truthy image_name) eqn:T.
  - destruct image_name as [name|]; [|done].
    apply truthy_nonempty in T. exists name.
    destruct (decide (name ∈ images s)) as [Hin|Hin].
    + rewrite load_known_outcome in Hret by done. cbn [ret] in Hret.
      destruct (exists_ e (cwd e // name)) eqn:Hex; [|done].
      injection Hret as <-. rewrite Himg in Hin.
      split_and!; [done | done | by apply catalog_truediv | done].
    + by rewrite load_unknown_outcome in Hret.
  - destruct da.
    + by rewrite load_all_outcome in Hret.
    + by rewrite load_default_outcome in Hret.
Qed.

Lemma load_impress_returned_path_witness :
  let name := "스크린샷 2025-08-17 오후 5.52.20.png" in
  let p := cwd one_file_dir // name in
  reachable module_init
  ∧ ret (load_impress (Some name) true true one_file_dir module_init)
    = inr (VPath p)
  ∧ ∃ name',
      Some name = Some name'
      ∧ name' ∈ AVAILABLE_IMAGES
      ∧ p = {| root := root (cwd one_file_dir);
               tail := tail (cwd one_file_dir) ++ [name'] |}
      ∧ exists_ one_file_dir p = true.
Proof.
  intros name p.
  assert (Hret : ret (load_impress (Some name) true true one_file_dir
                        module_init) = inr (VPath p)) by reflexivity.
  split_and!; [apply reach_init | exact Hret |].
  exact (load_impress_returned_path (Some name) true true one_file_dir
           module_init p reach_init Hret).
Defined.

(** X5: the messages name what was asked for: the [ValueError] of an
    unknown name quotes that name, and the [FileNotFoundError] of a missing
    file ends with the path that was tested. *)
Theorem load_impress_messages name da fd e s msg :
  name ≠ "" →
  (ret (load_impress (Some name) da fd e s) = inl (ValueError msg) →
   Str.occurs_in ("'" +:+ name +:+ "'") msg)
  ∧ (ret (load_impress (Some name) da fd e s) = inl (FileNotFoundError msg) →
     msg = "Image file not found: " +:+ PathOps.to_str (cwd e // name)).
Proof.
  intros Hne. destruct (decide (name ∈ images s)) as [Hin|Hin].
  - rewrite load_known_outcome by done. cbn [ret].
    destruct (exists_ e (cwd e // name)); split; intros [=]; done.
  - rewrite load_unknown_outcome by done. cbn [ret].
    split; intros [= <-].
    exists "Image ", (" not found. Available images: "
                      +:+ Str.repr_list (images s)).
    by rewrite !str_app_assoc.
Qed.

Lemma load_impress_messages_witness :
  "c.png" ≠ ""
  ∧ ∃ msg,
      ret (load_impress (Some "c.png") false false empty_dir module_init)
      = inl (ValueError msg)
      ∧ Str.occurs_in ("'" +:+ "c.png" +:+ "'") msg.
Proof.
  assert (Hne : "c.png" ≠ "") by discriminate.
  split; [exact Hne|]. eexists. split; [reflexivity|].
  apply (load_impress_messages "c.png" false false empty_dir module_init _ Hne).
  reflexivity.
Defined.

(** ** Every name: accounting, and agreement between the functions *)

(** X6: the loop of [load_impress(download_all=True)] tests every entry of
    the catalogue once, in order; each entry ends up either as a path in the
    result or as a printed warning, so the two counts add up to the size of
    the catalogue, and the warnings name the missing entries in order. *)
Theorem load_impress_all_accounting fd e s :
  let o := load_impress None true fd e s in
  ∃ paths,
    returned_list o = Some paths
    ∧ checked_paths (trace o) = PathOps.truediv (cwd e) <$> images s
    ∧ length paths + length (printed (trace o)) = length (images s)
    ∧ printed (trace o)
      = (λ n, "Warning: " +:+ n +:+ " not found in current directory")
          <$> filter (λ n, ¬ exists_ e (cwd e // n)) (images s).
Proof.
  intros o. subst o. unfold returned_list.
  rewrite load_all_outcome by done. cbn [ret final trace deref heap].
  rewrite lookup_top. eexists. split; [done|].
  rewrite checked_paths_cons. change (printed (EvCwd :: ?t)) with (printed t).
  rewrite checked_paths_scan, printed_scan, !length_fmap.
  split_and!; [done | apply present_absent_length | done].
Qed.

(** X7: in one environment, [load_impress(download_all=True)] and
    [get_image_info] agree: the paths of the first are the existing files of
    the second resolved under the working directory, the count reported by
    the second is the length of the first, and both test the same paths in
    the same order.  The two calls may start from different stores with the
    same catalogue, as when one follows the other. *)
Theorem bulk_agrees_with_info fd e s s' :
  images s' = images s →
  let o := load_impress None true fd e s in
  let o' := get_image_info e s' in
  ∃ i names,
    ret o' = inr i
    ∧ deref (final o') (existing_files i) = Some (EStr <$> names)
    ∧ returned_list o = Some (EPath ∘ PathOps.truediv (cwd e) <$> names)
    ∧ existing_images i = length (EPath ∘ PathOps.truediv (cwd e) <$> names)
    ∧ checked_paths (trace o) = checked_paths (trace o').
Proof.
  intros Himg o o'. subst o o'. unfold returned_list.
  rewrite load_all_outcome by done. rewrite get_image_info_outcome.
  eexists _, (present e (cwd e) (images s)). split; [done|].
  cbn [ret final trace deref heap existing_files existing_images].
  rewrite !lookup_top, Himg, length_fmap, !checked_paths_cons.
  by rewrite checked_paths_scan, checked_paths_tests.
Qed.

Lemma bulk_agrees_with_info_witness :
  let s' := final (load_impress None true false one_file_dir module_init) in
  images s' = images module_init
  ∧ ∃ i names,
      ret (get_image_info one_file_dir s') = inr i
      ∧ deref (final (get_image_info one_file_dir s')) (existing_files i)
        = Some (EStr <$> names)
      ∧ returned_list (load_impress None true false one_file_dir module_init)
        = Some (EPath ∘ PathOps.truediv (cwd one_file_dir) <$> names)
      ∧ existing_images i
        = length (EPath ∘ PathOps.truediv (cwd one_file_dir) <$> names)
      ∧ checked_paths
          (trace (load_impress None true false one_file_dir module_init))
        = checked_paths (trace (get_image_info one_file_dir s')).
Proof.
  intros s'.
  assert (Himg : images s' = images module_init) by reflexivity.
  split; [exact Himg|].
  exact (bulk_agrees_with_info false one_file_dir module_init s' Himg).
Defined.

(** X8: in one environment and store, looking up one non-empty name
    returns its path exactly when [get_image_info] lists that name among
    the existing files. *)
Theorem single_agrees_with_info da fd e s :
  ∃ i names,
    ret (get_image_info e s) = inr i
    ∧ deref (final (get_image_info e s)) (existing_files i)
      = Some (EStr <$> names)
    ∧ ∀ name, name ≠ "" →
        (ret (load_impress (Some name) da fd e s)
         = inr (VPath (cwd e // name)))
        ↔ name ∈ names.
Proof.
  rewrite get_image_info_outcome.
  eexists _, (present e (cwd e) (images s)). split; [done|].
  cbn [final deref heap existing_files]. rewrite lookup_top. split; [done|].
  intros name Hne. rewrite elem_of_present.
  destruct (decide (name ∈ images s)) as [Hin|Hin].
  - rewrite load_known_outcome by done. cbn [ret].
    destruct (exists_ e (cwd e // name)); split; try done.
    by intros [_ [=]].
  - rewrite load_unknown_outcome by done. cbn [ret].
    split; [done | by intros [? _]].
Qed.

Lemma single_agrees_with_info_witness :
  ∃ i names,
    ret (get_image_info one_file_dir module_init) = inr i
    ∧ deref (final (get_image_info one_file_dir module_init))
            (existing_files i) = Some (EStr <$> names)
    ∧ ∀ name, name ≠ "" →
        (ret (load_impress (Some name) false false one_file_dir module_init)
         = inr (VPath (cwd one_file_dir // name)))
        ↔ name ∈ names.
Proof.
  exact (single_agrees_with_info false false one_file_dir module_init).
Defined.

(** X9: the counts of [get_image_info] at their ends: the number of
    existing files equals the total exactly when every entry of the
    catalogue exists, and is zero exactly when none does. *)
Theorem get_image_info_all_or_none e s :
  ∃ i,
    ret (get_image_info e s) = inr i
    ∧ (existing_images i = total_images i
       ↔ ∀ n, n ∈ images s → exists_ e (cwd e // n) = true)
    ∧ (existing_images i = 0
       ↔ ∀ n, n ∈ images s → exists_ e (cwd e // n) = false).
Proof.
  rewrite get_image_info_outcome. eexists. split; [done|].
  cbn [existing_images total_images].
  pose proof (present_absent_length e (cwd e) (images s)) as Hsum.
  split.
  - split.
    + intros Hall n Hn.
      destruct (exists_ e (cwd e // n)) eqn:Hex; [done|].
      assert (n ∈ filter (λ n, ¬ exists_ e (cwd e // n)) (images s)) as Hm.
      { apply list_elem_of_filter. split; [by rewrite Hex; intros []|done]. }
      destruct (filter _ (images s)); [by apply elem_of_nil in Hm|].
      cbn in Hsum. lia.
    + intros Hall.
      destruct (filter (λ n, ¬ exists_ e (cwd e // n)) (images s))
        as [|n l] eqn:E; [cbn in Hsum; lia|].
      assert (n ∈ filter (λ n, ¬ exists_ e (cwd e // n)) (images s)) as Hm
        by (rewrite E; left).
      apply list_elem_of_filter in Hm as [Hn Hin].
      by rewrite (Hall n Hin) in Hn.
  - rewrite length_zero_iff_nil. split.
    + intros Hnil n Hn.
      destruct (exists_ e (cwd e // n)) eqn:Hex; [|done].
      assert (n ∈ present e (cwd e) (images s)) as Hm
        by by apply elem_of_present.
      rewrite Hnil in Hm. by apply elem_of_nil in Hm.
    + intros Hnone.
      destruct (present e (cwd e) (images s)) as [|n l] eqn:E; [done|].
      assert (n ∈ present e (cwd e) (images s)) as Hm by (rewrite E; left).
      apply elem_of_present in Hm as [Hin Hex].
      by rewrite (Hnone n Hin) in Hex.
Qed.

Lemma get_image_info_all_or_none_witness :
  ∃ i,
    ret (get_image_info empty_dir module_init) = inr i
    ∧ (existing_images i = total_images i
       ↔ ∀ n, n ∈ images module_init →
              exists_ empty_dir (cwd empty_dir // n) = true)
    ∧ (existing_images i = 0
       ↔ ∀ n, n ∈ images module_init →
              exists_ empty_dir (cwd empty_dir // n) = false).
Proof. exact (get_image_info_all_or_none empty_dir module_init). Defined.

(** ** Lists already handed out *)

Lemma final_heap_prefix e s :
  (∀ name da fd, heap s `prefix_of` heap (final (load_impress name da fd e s)))
  ∧ heap s `prefix_of` heap (final (list_available_images e s))
  ∧ heap s `prefix_of` heap (final (get_image_info e s)).
Proof.
  split_and!.
  - intros name da fd. destruct (truthy name) eqn:T.
    + destruct name as [name|]; [|done]. apply truthy_nonempty in T.
      destruct (decide (name ∈ images s)).
      * by rewrite load_known_outcome.
      * by rewrite load_unknown_outcome.
    + destruct da.
      * rewrite load_all_outcome by done. by apply prefix_app_r.
      * by rewrite load_default_outcome.
  - rewrite list_available_images_outcome. by apply prefix_app_r.
  - rewrite get_image_info_outcome. by apply prefix_app_r.
Qed.

Lemma deref_stable s s' r l :
  images s' = images s → heap s `prefix_of` heap s' →
  deref s r = Some l → deref s' r = Some l.
Proof.
  intros Himg Hpre. destruct r as [|a]; cbn.
  - by rewrite Himg.
  - intros Hl. by eapply prefix_lookup_Some.
Qed.

(** X10: no call changes a list that exists already: whatever a reference
    (to the global list or to a list returned earlier) reads before a call
    of [load_impress], [list_available_images] or [get_image_info], it
    reads after it. *)
Theorem earlier_lists_untouched e s r l :
  deref s r = Some l →
  (∀ name da fd, deref (final (load_impress name da fd e s)) r = Some l)
  ∧ deref (final (list_available_images e s)) r = Some l
  ∧ deref (final (get_image_info e s)) r = Some l.
Proof.
  intros Hl. destruct (final_heap_prefix e s) as (Hload & Hlist & Hinfo).
  split_and!.
  - intros name da fd.
    eapply deref_stable; [apply load_impress_images | apply Hload | done].
  - eapply deref_stable; [|apply Hlist|done].
    by rewrite list_available_images_outcome.
  - eapply deref_stable; [|apply Hinfo|done].
    by rewrite get_image_info_outcome.
Qed.

Lemma earlier_lists_untouched_witness :
  let s := final (list_available_images empty_dir module_init) in
  let l := EStr <$> AVAILABLE_IMAGES in
  deref s (RHeap 0) = Some l
  ∧ (∀ name da fd,
       deref (final (load_impress name da fd one_file_dir s)) (RHeap 0)
       = Some l)
  ∧ deref (final (list_available_images one_file_dir s)) (RHeap 0) = Some l
  ∧ deref (final (get_image_info one_file_dir s)) (RHeap 0) = Some l.
Proof.
  intros s l.
  assert (Hl : deref s (RHeap 0) = Some l) by reflexivity.
  split; [exact Hl|].
  exact (earlier_lists_untouched one_file_dir s (RHeap 0) l Hl).
Defined.

(** X11: every call that returns a list it built returns a new object: the
    reference was not in use before the call, so two calls of
    [list_available_images] return two different lists, which hold the same
    names. *)
Theorem built_lists_are_new fd e s :
  (∃ a, ret (load_impress None true fd e s) = inr (VList (RHeap a))
        ∧ deref s (RHeap a) = None)
  ∧ (∃ a, ret (list_available_images e s) = inr (VList (RHeap a))
          ∧ deref s (RHeap a) = None)
  ∧ (∃ i a, ret (get_image_info e s) = inr i ∧ existing_files i = RHeap a
            ∧ deref s (RHeap a) = None)
  ∧ (∀ e',
       let o := list_available_images e s in
       let o' := list_available_images e' (final o) in
       ∃ a a', ret o = inr (VList (RHeap a))
               ∧ ret o' = inr (VList (RHeap a')) ∧ a ≠ a'
               ∧ deref (final o') (RHeap a) = Some (EStr <$> images s)
               ∧ deref (final o') (RHeap a') = Some (EStr <$> images s)).
Proof.
  assert (Hnew : deref s (RHeap (length (heap s))) = None)
    by by apply lookup_ge_None_2.
  split_and!.
  - rewrite load_all_outcome by done. by eexists.
  - rewrite list_available_images_outcome. by eexists.
  - rewrite get_image_info_outcome. by eexists _, _.
  - intros e' o o'. subst o o'. rewrite !list_available_images_outcome.
    cbn [ret final deref heap images]. eexists _, _.
    split_and!; [done | done | | | ].
    + rewrite length_app. cbn. lia.
    + apply lookup_app_l_Some, lookup_top.
    + apply lookup_top.
Qed.

(** ** What the reachable states hold *)

Lemma catalog_NoDup : NoDup AVAILABLE_IMAGES.
Proof.
  repeat (apply NoDup_cons_2;
          [by apply mem_not_elem_of; vm_compute|]).
  apply NoDup_nil_2.
Qed.

Lemma truediv_catalog_inj cd n m :
  n ∈ AVAILABLE_IMAGES → m ∈ AVAILABLE_IMAGES → cd // n = cd // m → n = m.
Proof.
  intros Hn Hm. rewrite !catalog_truediv by done.
  intros [= H]. by apply app_inj_tail in H as [_ ?].
Qed.

(** X12: in every state the module reaches, each list it has handed out
    holds names of the catalogue, or such names resolved under one
    directory, in the order of the catalogue and without repetition; so it
    has at most nine elements. *)
Theorem reachable_lists_ok s a l :
  reachable s → heap s !! a = Some l →
  stored_ok l ∧ NoDup l ∧ length l ≤ 9.
Proof.
  intros Hs Hl.
  assert (Hok : Forall stored_ok (heap s)).
  { clear a l Hl. induction Hs as [|s e name da fd Hs IH|s e Hs IH|s e Hs IH].
    - constructor.
    - pose proof (reachable_images s Hs) as Himg.
      destruct (truthy name) eqn:T.
      + destruct name as [name|]; [|done]. apply truthy_nonempty in T.
        destruct (decide (name ∈ images s)).
        * by rewrite load_known_outcome.
        * by rewrite load_unknown_outcome.
      + destruct da.
        * rewrite load_all_outcome by done. cbn [final heap].
          apply Forall_app. split; [done|]. apply Forall_singleton.
          exists (present e (cwd e) (images s)). split.
          -- rewrite <-Himg. apply present_sublist.
          -- right. by exists (cwd e).
        * by rewrite load_default_outcome.
    - pose proof (reachable_images s Hs) as Himg.
      rewrite list_available_images_outcome. cbn [final heap].
      apply Forall_app. split; [done|]. apply Forall_singleton.
      exists (images s). split; [by rewrite Himg | by left].
    - pose proof (reachable_images s Hs) as Himg.
      rewrite get_image_info_outcome. cbn [final heap].
      apply Forall_app. split; [done|]. apply Forall_singleton.
      exists (present e (cwd e) (images s)). split.
      + rewrite <-Himg. apply present_sublist.
      + by left. }
  pose proof (Forall_lookup_1 _ _ _ _ Hok Hl) as Hgood.
  split; [done|]. destruct Hgood as (names & Hsub & Hshape).
  assert (Hnd : NoDup names) by (eapply sublist_NoDup, Hsub; apply catalog_NoDup).
  assert (Hlen : length names ≤ 9) by apply (sublist_length _ _ Hsub).
  destruct Hshape as [->|[cd ->]]; rewrite length_fmap; split; try done.
  - apply NoDup_fmap_2_strong; [|done]. by intros n m _ _ [=].
  - apply NoDup_fmap_2_strong; [|done].
    intros n m Hn Hm [= H].
    eapply truediv_catalog_inj; [| |exact H];
      by eapply sublist_subseteq.
Qed.

Lemma reachable_lists_ok_witness :
  let s := final (load_impress None true false one_file_dir module_init) in
  let l := [EPath (cwd one_file_dir // "스크린샷 2025-08-17 오후 5.52.20.png")] in
  reachable s ∧ heap s !! 0 = Some l
  ∧ stored_ok l ∧ NoDup l ∧ length l ≤ 9.
Proof.
  intros s l.
  assert (Hs : reachable s) by (apply reach_load, reach_init).
  assert (Hl : heap s !! 0 = Some l) by reflexivity.
  split_and!; [exact Hs | exact Hl | apply (reachable_lists_ok s 0 l Hs Hl)..].
Defined.

(** * The script *)

(** ** Running a script step by step *)

Lemma script_bind_ok {A B} (m : Script A) (k : A → Script B)
    se s t1 s1 a t2 s2 r :
  m se s = mkRun t1 s1 (inr a) →
  k a se s1 = mkRun t2 s2 r →
  (m ≫= k) se s = mkRun (t1 ++ t2) s2 r.
Proof.
  intros Hm Hk. unfold mbind, Script_bind. rewrite Hm. cbn. by rewrite Hk.
Qed.

Lemma script_bind_raise {A B} (m : Script A) (k : A → Script B)
    se s t1 s1 text :
  m se s = mkRun t1 s1 (inl text) →
  (m ≫= k) se s = mkRun t1 s1 (inl text).
Proof. intros Hm. unfold mbind, Script_bind. by rewrite Hm. Qed.

Lemma try_except_ok body handler se s t1 s1 :
  body se s = mkRun t1 s1 (inr ()) →
  try_except body handler se s = mkRun t1 s1 (inr ()).
Proof. intros Hb. unfold try_except. by rewrite Hb. Qed.

Lemma try_except_caught body handler se s t1 s1 text t2 s2 r :
  body se s = mkRun t1 s1 (inl text) →
  handler text se s1 = mkRun t2 s2 r →
  try_except body handler se s = mkRun (t1 ++ t2) s2 r.
Proof.
  intros Hb Hh. unfold try_except. rewrite Hb. cbn. by rewrite Hh.
Qed.

Lemma call_ok {A} (m : M A) se s t s' a :
  m (fs se) s = mkOutcome t s' (inr a) →
  call m se s = mkRun (Did <$> t) s' (inr a).
Proof. intros Hm. unfold call. by rewrite Hm. Qed.

Lemma call_raise {A} (m : M A) se s t s' x :
  m (fs se) s = mkOutcome t s' (inl x) →
  call m se s = mkRun (Did <$> t) s' (inl (exn_str x)).
Proof. intros Hm. unfold call. by rewrite Hm. Qed.

Lemma say_run line se s : say line se s = mkRun [Did (EvPrint line)] s (inr ()).
Proof. reflexivity. Qed.

Lemma lines_app t1 t2 : lines (t1 ++ t2) = lines t1 ++ lines t2.
Proof. apply bind_app. Qed.

Lemma lines_prints l : lines (Did ∘ EvPrint <$> l) = l.
Proof. induction l as [|x l IH]; [done|]. cbn. by f_equal. Qed.

Lemma lines_did t : lines (Did <$> t) = printed t.
Proof.
  induction t as [|ev t IH]; [done|].
  rewrite fmap_cons. unfold lines, printed in *. rewrite !bind_cons, IH.
  by destruct ev.
Qed.

(** One step: run the computation in front, then go on with the rest. *)
Lemma value_len_run r se s :
  value_len (VList r) se s
  = mkRun [] s (inr (length (default [] (deref s r)))).
Proof. reflexivity. Qed.

Lemma value_iter_run r se s :
  value_iter (VList r) se s = mkRun [] s (inr (default [] (deref s r))).
Proof. reflexivity. Qed.

Ltac script_step :=
  eapply script_bind_ok;
  [first [apply say_run | apply value_len_run | apply value_iter_run
         | reflexivity]
  | cbv beta].

(** Reading the list that was allocated last. *)
Ltac read_top := cbn [deref heap]; rewrite lookup_top; cbn [from_option id].

(** The same for a call of one of the module's functions, whose outcome is
    given by [H]. *)
Ltac script_call H :=
  eapply script_bind_ok; [apply call_ok, H | cbv beta].

(** ** The loops of the script *)

Lemma listing_run {A} (f : nat → A → string) se s start (l : list A) :
  for_enumerate start l (λ i x, say (f i x)) se s
  = mkRun (Did ∘ EvPrint <$> numbered f start l) s (inr ()).
Proof.
  revert start. induction l as [|x l IH]; intros start; [done|].
  cbn [for_enumerate]. erewrite script_bind_ok; [|apply say_run|apply IH].
  done.
Qed.

Lemma sizes_run se s cd start names :
  Forall (λ n, exists_ (fs se) (cd // n) = true) names →
  ∃ t,
    for_enumerate start (EPath ∘ PathOps.truediv cd <$> names)
      (λ i img_path,
         name ← elem_name img_path;
         size ← elem_stat_size img_path;
         say ("   " +:+ pretty i +:+ ". " +:+ name
                +:+ " (" +:+ pretty size +:+ " bytes)")) se s
    = mkRun t s (inr ())
    ∧ lines t
      = numbered (λ i n, "   " +:+ pretty i +:+ ". " +:+ Path_name (cd // n)
                           +:+ " (" +:+ pretty (st_size se (cd // n))
                           +:+ " bytes)") start names.
Proof.
  intros Hall. revert start.
  induction Hall as [|n names Hn _ IH]; intros start.
  - by exists [].
  - destruct (IH (S start)) as (t & Ht & Hlines).
    eexists. split.
    + cbn [fmap list_fmap for_enumerate compose].
      eapply script_bind_ok; [|exact Ht].
      script_step. eapply script_bind_ok; [|apply say_run].
      cbn [elem_stat_size]. unfold stat_size. by rewrite Hn.
    + rewrite !lines_app, Hlines. done.
Qed.

Lemma numbered_fmap {A B} (g : A → B) (f : nat → B → string) start l :
  numbered f start (g <$> l) = numbered (λ i x, f i (g x)) start l.
Proof.
  revert start. induction l as [|x l IH]; intros start; [done|].
  cbn. by rewrite IH.
Qed.

Lemma numbered_length {A} (f : nat → A → string) start l :
  length (numbered f start l) = length l.
Proof.
  revert start. induction l as [|x l IH]; intros start; [done|].
  cbn. by rewrite IH.
Qed.

Lemma numbered_ext {A} (f g : nat → A → string) start l :
  (∀ i x, x ∈ l → f i x = g i x) → numbered f start l = numbered g start l.
Proof.
  revert start. induction l as [|x l IH]; intros start Hfg; [done|].
  cbn. rewrite Hfg by left. f_equal. apply IH.
  intros i y Hy. apply Hfg. by right.
Qed.

(** ** The four parts *)

Section Parts.
Context (se : script_env) (s : store).
Let cd := cwd (fs se).
Let kept := present (fs se) cd (images s).

Lemma test_list_images_run :
  ∃ t,
    test_list_images se s
    = mkRun t {| images := images s; heap := heap s ++ [EStr <$> images s] |}
        (inr ())
    ∧ lines t
      = nl "1. Available images:"
        :: numbered (λ i n, "   " +:+ pretty i +:+ ". " +:+ n) 1 (images s).
Proof.
  eexists. split.
  - unfold test_list_images. script_step.
    script_call list_available_images_outcome. script_step. read_top.
    apply listing_run.
  - rewrite !lines_app, lines_prints, numbered_fmap. done.
Qed.

Lemma test_get_info_run :
  ∃ t,
    test_get_info se s
    = mkRun t {| images := images s; heap := heap s ++ [EStr <$> kept] |}
        (inr ())
    ∧ lines t
      = [nl "2. Dataset info:";
         "   Total images: " +:+ pretty (length (images s));
         "   Existing images: " +:+ pretty (length kept);
         "   Current directory: " +:+ PathOps.to_str cd].
Proof.
  eexists. split.
  - unfold test_get_info. script_step.
    script_call get_image_info_outcome.
    script_step. script_step. apply say_run.
  - rewrite !lines_app, lines_did.
    change (printed (EvCwd :: ?t)) with (printed t).
    by rewrite printed_tests.
Qed.

Lemma test_load_specific_run :
  ∃ t,
    test_load_specific se s = mkRun t s (inr ())
    ∧ lines t = nl "3. Load specific image:" :: load_specific_lines se s.
Proof.
  unfold load_specific_lines. fold cd.
  set (name := "스크린샷 2025-08-17 오후 5.49.14.png").
  assert (Hne : name ≠ "") by done.
  destruct (decide (name ∈ images s)) as [Hin|Hin].
  - pose proof (load_known_outcome (fs se) s name false false Hne Hin) as Hload.
    fold cd in Hload.
    destruct (exists_ (fs se) (cd // name)) eqn:Hex.
    + eexists. split.
      * unfold test_load_specific. script_step. apply try_except_ok.
        script_call Hload.
        script_step. script_step. script_step. script_step.
        eapply script_bind_ok; [|apply say_run].
        cbn [value_stat_size]. unfold stat_size. by rewrite Hex.
      * by rewrite Hex.
    + eexists. split.
      * unfold test_load_specific. script_step.
        eapply try_except_caught; [|apply say_run].
        eapply script_bind_raise. apply call_raise, Hload.
      * done.
  - pose proof (load_unknown_outcome (fs se) s name false false Hne Hin)
      as Hload.
    eexists. split.
    + unfold test_load_specific. script_step.
      eapply try_except_caught; [|apply say_run].
      eapply script_bind_raise. apply call_raise, Hload.
    + done.
Qed.

Lemma test_load_all_run :
  ∃ t,
    test_load_all se s
    = mkRun t {| images := images s;
                 heap := heap s ++ [EPath ∘ PathOps.truediv cd <$> kept] |}
        (inr ())
    ∧ lines t
      = nl "4. Load all images:"
        :: ((λ n, "Warning: " +:+ n +:+ " not found in current directory")
              <$> filter (λ n, ¬ exists_ (fs se) (cd // n)) (images s))
        ++ ("   Found " +:+ pretty (length kept) +:+ " images:")
        :: numbered (λ i n, "   " +:+ pretty i +:+ ". " +:+ Path_name (cd // n)
                              +:+ " (" +:+ pretty (st_size se (cd // n))
                              +:+ " bytes)") 1 kept.
Proof.
  assert (Hall : Forall (λ n, exists_ (fs se) (cd // n) = true) kept).
  { apply Forall_forall. by intros n [_ ?]%elem_of_present. }
  destruct (sizes_run se
              {| images := images s;
                 heap := heap s ++ [EPath ∘ PathOps.truediv cd <$> kept] |}
              cd 1 kept Hall) as (t & Ht & Hlines).
  eexists. split.
  - unfold test_load_all. script_step. apply try_except_ok.
    script_call (load_all_outcome (fs se) s None false eq_refl).
    script_step. read_top. script_step. script_step. read_top. exact Ht.
  - rewrite !lines_app, Hlines, length_fmap, lines_did.
    change (printed (EvCwd :: ?t)) with (printed t).
    by rewrite printed_scan.
Qed.

End Parts.

(** ** The whole script *)

Lemma main_run se s :
  let cd := cwd (fs se) in
  let kept := present (fs se) cd (images s) in
  ∃ t,
    main se s
    = mkRun t
        {| images := images s;
           heap := heap s ++ [EStr <$> images s; EStr <$> kept;
                              EPath ∘ PathOps.truediv cd <$> kept] |}
        (inr ())
    ∧ lines t = script_output se s.
Proof.
  intros cd kept.
  destruct (test_list_images_run se s) as (t1 & H1 & L1).
  destruct (test_get_info_run se
              {| images := images s; heap := heap s ++ [EStr <$> images s] |})
    as (t2 & H2 & L2).
  destruct (test_load_specific_run se
              {| images := images s;
                 heap := (heap s ++ [EStr <$> images s])
                           ++ [EStr <$> kept] |})
    as (t3 & H3 & L3).
  destruct (test_load_all_run se
              {| images := images s;
                 heap := (heap s ++ [EStr <$> images s])
                           ++ [EStr <$> kept] |})
    as (t4 & H4 & L4).
  cbn [images heap] in H2, H4, L2, L4.
  exists ([Did (EvPrint "=== ICT Impression Wave Verification Data Test ===")]
            ++ t1 ++ t2 ++ t3 ++ t4
            ++ [Did (EvPrint (nl "=== Test completed ==="))]).
  split.
  - replace (heap s ++ [EStr <$> images s; EStr <$> kept;
                         EPath ∘ PathOps.truediv cd <$> kept])
      with (((heap s ++ [EStr <$> images s]) ++ [EStr <$> kept])
              ++ [EPath ∘ PathOps.truediv cd <$> kept])
      by (by rewrite <-!(assoc_L (++))).
    unfold main. script_step.
    eapply script_bind_ok; [exact H1|].
    eapply script_bind_ok; [exact H2|].
    eapply script_bind_ok; [exact H3|].
    eapply script_bind_ok; [exact H4|].
    apply say_run.
  - rewrite !lines_app, L1, L2, L3, L4. unfold script_output.
    fold cd. fold (present (fs se) cd (images s)). fold kept.
    unfold load_specific_lines. cbn [images]. fold cd.
    change (lines [Did (EvPrint ?x)]) with [x].
    cbn [app]. rewrite <-!(assoc_L (++)). done.
Qed.

Lemma catalog_Path_name cd n : n ∈ AVAILABLE_IMAGES → Path_name (cd // n) = n.
Proof.
  intros Hn. rewrite catalog_truediv by done.
  unfold Path_name. cbn [tail]. by rewrite last_snoc.
Qed.





(** * When a call can fail *)

(** ** Running a computation of [Os] step by step *)

Lemma os_bind_ok {A B} (m : Os.M A) (k : A → Os.M B) oe s t1 s1 a t2 s2 r :
  m oe s = Os.mkOutcome t1 s1 (inr a) →
  k a oe s1 = Os.mkOutcome t2 s2 r →
  (m ≫= k) oe s = Os.mkOutcome (t1 ++ t2) s2 r.
Proof.
  intros Hm Hk. unfold mbind, Os.M_bind. rewrite Hm. cbn. by rewrite Hk.
Qed.

Lemma os_bind_raise {A B} (m : Os.M A) (k : A → Os.M B) oe s t1 s1 x :
  m oe s = Os.mkOutcome t1 s1 (inl x) →
  (m ≫= k) oe s = Os.mkOutcome t1 s1 (inl x).
Proof. intros Hm. unfold mbind, Os.M_bind. by rewrite Hm. Qed.

Lemma os_cwd_run oe s : 
  Os.Path_cwd oe s = Os.mkOutcome [Did EvCwd] s (Os.answer (Os.os_cwd oe)).
Proof. reflexivity. Qed.

Lemma os_exists_run oe s p b :
  Os.os_exists oe p = inr b →
  Os.Path_exists p oe s = Os.mkOutcome [Did (EvExists p)] s (inr b).
Proof. intros H. unfold Os.Path_exists. by rewrite H. Qed.

Lemma os_print_run oe s line :
  Os.os_print oe line = None →
  Os.print line oe s = Os.mkOutcome [Did (EvPrint line)] s (inr ()).
Proof. intros H. unfold Os.print. by rewrite H. Qed.

Ltac os_step :=
  eapply os_bind_ok; [reflexivity | cbv beta].

(** ** Agreement with the functions whose calls always answer *)

Section Agreement.
Context (oe : Os.env) (cd : Path).
Let e := answers_of oe cd.

Lemma answers_of_exists p b :
  Os.os_exists oe p = inr b → exists_ e p = b.
Proof. intros H. cbn. by rewrite H. Qed.

Lemma answers_of_true p :
  exists_ e p = true ↔ Os.os_exists oe p = inr true.
Proof.
  cbn. destruct (Os.os_exists oe p) as [x|[]]; split; congruence.
Qed.

Lemma os_scan_run l s h acc :
  tests_answer oe cd l → warnings_written oe cd l →
  heap s = h ++ [acc] →
  Os.for_each l (λ filename,
      found ← Os.Path_exists (cd // filename);
      if found : bool then Os.list_append (length h) (EPath (cd // filename))
      else Os.print ("Warning: " +:+ filename
                       +:+ " not found in current directory")) oe s
  = Os.mkOutcome (Did <$> scan_events e cd l)
      {| images := images s;
         heap := h ++ [acc ++ (EPath ∘ PathOps.truediv cd <$> present e cd l)] |}
      (inr ()).
Proof.
  revert s acc. induction l as [|n l IH]; intros s acc Ht Hw Hs.
  - cbn. rewrite app_nil_r, <-Hs. by destruct s.
  - destruct (Ht n) as [b Hb]; [by left|].
    assert (Ht' : tests_answer oe cd l) by (intros m Hm; apply Ht; by right).
    assert (Hw' : warnings_written oe cd l)
      by (intros m Hm; apply Hw; by right).
    rewrite present_cons, scan_events_cons, (answers_of_exists _ _ Hb).
    cbn [Os.for_each]. destruct b.
    + etransitivity.
      { eapply os_bind_ok.
        - eapply os_bind_ok; [by apply os_exists_run | reflexivity].
        - apply (IH _ (acc ++ [EPath (cd // n)])); [done | done |].
          cbn. by rewrite Hs, alter_top. }
      cbn. by rewrite <-(assoc_L (++)).
    + etransitivity.
      { eapply os_bind_ok.
        - eapply os_bind_ok; [by apply os_exists_run|].
          apply os_print_run, Hw; [by left | done].
        - by apply (IH _ acc). }
      done.
Qed.

Lemma os_comprehension_run l s :
  tests_answer oe cd l →
  Os.comprehension l (λ img, Os.Path_exists (cd // img)) oe s
  = Os.mkOutcome (Did <$> ((λ n, EvExists (cd // n)) <$> l)) s
      (inr (present e cd l)).
Proof.
  induction l as [|n l IH]; intros Ht; [done|].
  destruct (Ht n) as [b Hb]; [by left|].
  assert (Ht' : tests_answer oe cd l) by (intros m Hm; apply Ht; by right).
  rewrite present_cons, (answers_of_exists _ _ Hb). cbn [Os.comprehension].
  etransitivity.
  { eapply os_bind_ok; [by apply os_exists_run|].
    eapply os_bind_ok; [by apply IH | reflexivity]. }
  cbn. rewrite app_nil_r. by destruct b.
Qed.

(** Where [Path.cwd()] answers [cd], the tests of the catalogue answer and
    the warnings are written, [Os.load_impress] does what [load_impress]
    does on those answers. *)
Lemma os_load_impress_agrees name da fd s :
  Os.os_cwd oe = inr cd →
  tests_answer oe cd (images s) → warnings_written oe cd (images s) →
  Os.load_impress name da fd oe s = os_outcome (load_impress name da fd e s).
Proof.
  intros Hcwd Ht Hw. unfold Os.load_impress.
  destruct (truthy name) eqn:T.
  - destruct name as [name|]; [|done]. cbn [from_option id].
    apply truthy_nonempty in T as Hne.
    destruct (decide (name ∈ images s)) as [Hin|Hin].
    + rewrite load_known_outcome by done. change (cwd e) with cd.
      destruct (Ht name Hin) as [b Hb].
      rewrite (answers_of_exists _ _ Hb). apply mem_elem_of in Hin.
      destruct b.
      * etransitivity.
        { eapply os_bind_ok; [by rewrite os_cwd_run, Hcwd|]. cbv beta zeta.
          eapply os_bind_ok; [reflexivity|]. cbv beta. rewrite Hin.
          eapply os_bind_ok; [by apply os_exists_run | reflexivity]. }
        done.
      * etransitivity.
        { eapply os_bind_ok; [by rewrite os_cwd_run, Hcwd|]. cbv beta zeta.
          eapply os_bind_ok; [reflexivity|]. cbv beta. rewrite Hin.
          eapply os_bind_ok; [by apply os_exists_run | reflexivity]. }
        done.
    + rewrite load_unknown_outcome by done. change (cwd e) with cd.
      apply mem_not_elem_of in Hin.
      etransitivity.
      { eapply os_bind_ok; [by rewrite os_cwd_run, Hcwd|]. cbv beta zeta.
        eapply os_bind_ok; [reflexivity|]. cbv beta. rewrite Hin.
        reflexivity. }
      done.
  - destruct da.
    + rewrite load_all_outcome by done. change (cwd e) with cd.
      etransitivity.
      { eapply os_bind_ok; [by rewrite os_cwd_run, Hcwd|]. cbv beta zeta.
        eapply os_bind_ok; [reflexivity|]. cbv beta.
        eapply os_bind_ok; [reflexivity|]. cbv beta.
        eapply os_bind_ok; [|reflexivity].
        by apply (os_scan_run (images s) _ (heap s) []). }
      unfold os_outcome. cbn. by rewrite app_nil_r.
    + rewrite load_default_outcome by done.
      etransitivity.
      { eapply os_bind_ok; [by rewrite os_cwd_run, Hcwd | reflexivity]. }
      done.
Qed.

Lemma os_get_image_info_agrees s :
  Os.os_cwd oe = inr cd → tests_answer oe cd (images s) →
  Os.get_image_info oe s = os_outcome (get_image_info e s).
Proof.
  intros Hcwd Ht. rewrite get_image_info_outcome. change (cwd e) with cd.
  unfold Os.get_image_info.
  etransitivity.
  { eapply os_bind_ok; [by rewrite os_cwd_run, Hcwd|]. cbv beta.
    eapply os_bind_ok; [reflexivity|]. cbv beta.
    eapply os_bind_ok; [by apply os_comprehension_run|]. cbv beta.
    reflexivity. }
  unfold os_outcome. cbn. by rewrite app_nil_r.
Qed.

End Agreement.

(** An exception of [Path.cwd()] leaves both functions at once. *)
Lemma os_cwd_raises oe x name da fd s :
  Os.os_cwd oe = inl x →
  Os.load_impress name da fd oe s
  = Os.mkOutcome [Did EvCwd] s (inl (Os.Foreign x))
  ∧ Os.get_image_info oe s = Os.mkOutcome [Did EvCwd] s (inl (Os.Foreign x)).
Proof.
  intros Hcwd. split.
  - unfold Os.load_impress. apply os_bind_raise. by rewrite os_cwd_run, Hcwd.
  - unfold Os.get_image_info. apply os_bind_raise. by rewrite os_cwd_run, Hcwd.
Qed.

Lemma filter_answers_of oe cd l :
  filter (λ n, Os.os_exists oe (cd // n) = inr true) l
  = present (answers_of oe cd) cd l.
Proof.
  unfold present. apply list_filter_iff. intros n.
  rewrite Is_true_true. symmetry. apply answers_of_true.
Qed.

(** ** The text of an encoding error *)

Example ascii_error_text_examples :
  ascii_error_text "   1. 스크린샷 2025-08-17 오후 5.49.14.png"
  = "'ascii' codec can't encode characters in position 6-9: ordinal not in range(128)"
  ∧ ascii_error_text "aéb"
    = "'ascii' codec can't encode character '\xe9' in position 1: ordinal not in range(128)"
  ∧ ascii_error_text "x스y"
    = "'ascii' codec can't encode character '\uc2a4' in position 1: ordinal not in range(128)"
  ∧ ascii_error_text "😀"
    = "'ascii' codec can't encode character '\U0001f600' in position 0: ordinal not in range(128)"
  ∧ ascii_error_text "ab😀é z"
    = "'ascii' codec can't encode characters in position 2-3: ordinal not in range(128)".
Proof. split_and!; by vm_compute. Qed.

(** ** Looking up every name *)




(** ** Missing files in the bulk operations *)




(** ** No name and no [download_all] *)

(** C10, as stated, fails: the call begins with [Path.cwd()], an access to
    the file system, and when the working directory has been removed that
    call raises and no list is returned. *)
Lemma load_impress_default_asks_for_cwd :
  Os.load_impress None false false removed_dir module_init
  = Os.mkOutcome [Did EvCwd] module_init
      (inl (Os.Foreign (Os.mkExc "FileNotFoundError"
                          "[Errno 2] No such file or directory")))
  ∧ Os.load_impress (Some "") false false removed_dir module_init
    = Os.mkOutcome [Did EvCwd] module_init
        (inl (Os.Foreign (Os.mkExc "FileNotFoundError"
                            "[Errno 2] No such file or directory"))).
Proof. split; reflexivity. Qed.

(** C10 (amended): when [image_name] is [None] or the empty string and
    [download_all] is false, [load_impress] makes one call, [Path.cwd()].
    When it answers, the function returns the global list itself, whose
    elements are the names of the catalogue in order, tests no file, prints
    nothing, leaves the store as it was and does not raise; when it raises,
    its exception leaves the function.  The empty string takes this branch,
    not the one of an unknown name. *)
Theorem os_load_impress_default fd oe s :
  (∀ cd, Os.os_cwd oe = inr cd →
     Os.load_impress None false fd oe s
     = Os.mkOutcome [Did EvCwd] s (inr (VList RGlobal))
     ∧ Os.load_impress (Some "") false fd oe s
       = Os.mkOutcome [Did EvCwd] s (inr (VList RGlobal)))
  ∧ (∀ x, Os.os_cwd oe = inl x →
       Os.load_impress None false fd oe s
       = Os.mkOutcome [Did EvCwd] s (inl (Os.Foreign x))
       ∧ Os.load_impress (Some "") false fd oe s
         = Os.mkOutcome [Did EvCwd] s (inl (Os.Foreign x)))
  ∧ deref s RGlobal = Some (EStr <$> images s).
Proof.
  split_and!; [| |done].
  - intros cd Hcwd. unfold Os.load_impress, mbind, Os.M_bind.
    rewrite os_cwd_run, Hcwd. done.
  - intros x Hcwd. unfold Os.load_impress, mbind, Os.M_bind.
    rewrite os_cwd_run, Hcwd. done.
Qed.

Lemma os_load_impress_default_witness :
  Os.os_cwd (answering empty_script_env) = inr (PathOps.parse "/data")
  ∧ Os.load_impress None false false (answering empty_script_env) module_init
    = Os.mkOutcome [Did EvCwd] module_init (inr (VList RGlobal))
  ∧ Os.load_impress (Some "") false false removed_dir module_init
    = Os.mkOutcome [Did EvCwd] module_init
        (inl (Os.Foreign (Os.mkExc "FileNotFoundError"
                            "[Errno 2] No such file or directory"))).
Proof.
  pose proof (os_load_impress_default false (answering empty_script_env)
                module_init) as (Hok & _ & _).
  pose proof (os_load_impress_default false removed_dir module_init)
    as (_ & Hraise & _).
  split_and!; [reflexivity | apply (Hok _ eq_refl) | apply (Hraise _ eq_refl)].
Defined.

(** ** The script *)

Lemma os_try_ok body handler oe s t1 s1 :
  body oe s = Os.mkOutcome t1 s1 (inr ()) →
  Os.try_except body handler oe s = Os.mkOutcome t1 s1 (inr ()).
Proof. intros Hb. unfold Os.try_except. by rewrite Hb. Qed.

Lemma os_try_caught body handler oe s t1 s1 x t2 s2 r :
  body oe s = Os.mkOutcome t1 s1 (inl x) →
  handler (Os.raised_str x) oe s1 = Os.mkOutcome t2 s2 r →
  Os.try_except body handler oe s = Os.mkOutcome (t1 ++ t2) s2 r.
Proof.
  intros Hb Hh. unfold Os.try_except. rewrite Hb. cbn. by rewrite Hh.
Qed.

Lemma os_list_available_images_run oe s :
  Os.list_available_images oe s
  = Os.mkOutcome []
      {| images := images s; heap := heap s ++ [EStr <$> images s] |}
      (inr (VList (RHeap (length (heap s))))).
Proof. reflexivity. Qed.

Lemma os_value_len_run r oe s :
  Os.value_len (VList r) oe s
  = Os.mkOutcome [] s (inr (length (default [] (deref s r)))).
Proof. reflexivity. Qed.

Lemma os_value_iter_run r oe s :
  Os.value_iter (VList r) oe s
  = Os.mkOutcome [] s (inr (default [] (deref s r))).
Proof. reflexivity. Qed.

(** A step whose computation in front has a stated outcome. *)
Ltac os_known :=
  eapply os_bind_ok;
  [first [apply os_list_available_images_run | apply os_value_len_run
         | apply os_value_iter_run | reflexivity]
  | cbv beta].

Section OsScript.
Context (oe : Os.env) (cd : Path).
Context (Hcwd : Os.os_cwd oe = inr cd).
Context (Hp : ∀ line, Os.os_print oe line = None).
Let se := script_answers_of oe cd.

(** A line is printed, then the rest runs. *)
Ltac os_say := eapply os_bind_ok; [apply os_print_run, Hp | cbv beta].

Lemma os_listing_run {A} (f : nat → A → string) s start (l : list A) :
  Os.for_enumerate start l (λ i x, Os.print (f i x)) oe s
  = Os.mkOutcome (Did ∘ EvPrint <$> numbered f start l) s (inr ()).
Proof.
  revert start. induction l as [|x l IH]; intros start; [done|].
  cbn [Os.for_enumerate].
  erewrite os_bind_ok; [|apply os_print_run, Hp|apply IH]. done.
Qed.

Lemma os_sizes_run s start names :
  Forall (λ n, Os.os_exists oe (cd // n) = inr true
               ∧ ∃ k, Os.os_stat_size oe (cd // n) = inr k) names →
  ∃ t,
    Os.for_enumerate start (EPath ∘ PathOps.truediv cd <$> names)
      (λ i img_path,
         name ← Os.elem_name img_path;
         size ← Os.elem_stat_size img_path;
         Os.print ("   " +:+ pretty i +:+ ". " +:+ name
                     +:+ " (" +:+ pretty size +:+ " bytes)")) oe s
    = Os.mkOutcome t s (inr ())
    ∧ lines t
      = numbered (λ i n, "   " +:+ pretty i +:+ ". " +:+ Path_name (cd // n)
                           +:+ " (" +:+ pretty (st_size se (cd // n))
                           +:+ " bytes)") start names.
Proof.
  intros Hall. revert start.
  induction Hall as [|n names [Hn [k Hk]] _ IH]; intros start.
  - by exists [].
  - destruct (IH (S start)) as (t & Ht & Hlines).
    eexists. split.
    + cbn [fmap list_fmap Os.for_enumerate compose].
      eapply os_bind_ok; [|exact Ht].
      os_known. eapply os_bind_ok; [|apply os_print_run, Hp].
      cbn [Os.elem_stat_size]. unfold Os.stat_size. by rewrite Hk.
    + rewrite !lines_app, Hlines. cbn. by rewrite Hk.
Qed.

Lemma os_test_list_images_run s :
  ∃ t,
    Os.test_list_images oe s
    = Os.mkOutcome t
        {| images := images s; heap := heap s ++ [EStr <$> images s] |}
        (inr ())
    ∧ lines t
      = nl "1. Available images:"
        :: numbered (λ i n, "   " +:+ pretty i +:+ ". " +:+ n) 1 (images s).
Proof.
  eexists. split.
  - unfold Os.test_list_images. os_say. os_known. os_known. read_top.
    apply os_listing_run.
  - rewrite !lines_app, lines_prints, numbered_fmap. done.
Qed.

Lemma os_test_get_info_run s :
  tests_answer oe cd (images s) →
  ∃ t,
    Os.test_get_info oe s
    = Os.mkOutcome t
        {| images := images s;
           heap := heap s ++ [EStr <$> present (fs se) cd (images s)] |}
        (inr ())
    ∧ lines t
      = [nl "2. Dataset info:";
         "   Total images: " +:+ pretty (length (images s));
         "   Existing images: "
           +:+ pretty (length (present (fs se) cd (images s)));
         "   Current directory: " +:+ PathOps.to_str cd].
Proof.
  intros Ht. eexists. split.
  - unfold Os.test_get_info. os_say.
    eapply os_bind_ok.
    { rewrite (os_get_image_info_agrees oe cd s Hcwd Ht).
      rewrite get_image_info_outcome. unfold os_outcome.
      cbn [trace final ret cwd answers_of]. reflexivity. }
    cbv beta. os_say. os_say. apply os_print_run, Hp.
  - rewrite !lines_app, lines_did.
    change (printed (EvCwd :: ?t)) with (printed t).
    by rewrite printed_tests.
Qed.

Lemma os_test_load_specific_run s :
  tests_answer oe cd (images s) → sizes_answer oe cd (images s) →
  ∃ t,
    Os.test_load_specific oe s = Os.mkOutcome t s (inr ())
    ∧ lines t = nl "3. Load specific image:" :: load_specific_lines se s.
Proof.
  intros Ht Hsz.
  assert (Hw : warnings_written oe cd (images s)) by (intros n _ _; apply Hp).
  pose proof (os_load_impress_agrees oe cd
                (Some "스크린샷 2025-08-17 오후 5.49.14.png") false false s
                Hcwd Ht Hw) as Hagree.
  unfold load_specific_lines.
  set (name := "스크린샷 2025-08-17 오후 5.49.14.png") in *.
  assert (Hne : name ≠ "") by done.
  change (cwd (fs se)) with cd.
  destruct (decide (name ∈ images s)) as [Hin|Hin].
  - rewrite load_known_outcome in Hagree by done.
    change (cwd (answers_of oe cd)) with cd in Hagree.
    unfold os_outcome in Hagree. cbn [trace final ret] in Hagree.
    destruct (Ht name Hin) as [b Hb].
    change (exists_ (fs se) (cd // name))
      with (exists_ (answers_of oe cd) (cd // name)).
    rewrite (answers_of_exists _ _ _ _ Hb) in Hagree |- *.
    destruct b.
    + destruct (Hsz name Hin Hb) as [k Hk].
      eexists. split.
      * unfold Os.test_load_specific. os_say. apply os_try_ok.
        eapply os_bind_ok; [exact Hagree|]. cbv beta.
        os_known. os_say.
        eapply os_bind_ok; [by apply os_exists_run|]. cbv beta.
        os_say.
        eapply os_bind_ok; [|apply os_print_run, Hp].
        cbn [Os.value_stat_size]. unfold Os.stat_size. by rewrite Hk.
      * assert (Hsize : st_size se (cd // name) = k)
          by (unfold se, script_answers_of; cbn [st_size]; by rewrite Hk).
        by rewrite Hsize.
    + eexists. split.
      * unfold Os.test_load_specific. os_say.
        eapply os_try_caught; [|apply os_print_run, Hp].
        eapply os_bind_raise. exact Hagree.
      * done.
  - rewrite load_unknown_outcome in Hagree by done.
    unfold os_outcome in Hagree. cbn [trace final ret] in Hagree.
    eexists. split.
    + unfold Os.test_load_specific. os_say.
      eapply os_try_caught; [|apply os_print_run, Hp].
      eapply os_bind_raise. exact Hagree.
    + done.
Qed.

Lemma os_test_load_all_run s :
  tests_answer oe cd (images s) → sizes_answer oe cd (images s) →
  ∃ t,
    Os.test_load_all oe s
    = Os.mkOutcome t
        {| images := images s;
           heap := heap s ++ [EPath ∘ PathOps.truediv cd
                                <$> present (fs se) cd (images s)] |}
        (inr ())
    ∧ lines t
      = nl "4. Load all images:"
        :: ((λ n, "Warning: " +:+ n +:+ " not found in current directory")
              <$> filter (λ n, ¬ exists_ (fs se) (cd // n)) (images s))
        ++ ("   Found " +:+ pretty (length (present (fs se) cd (images s)))
              +:+ " images:")
        :: numbered (λ i n, "   " +:+ pretty i +:+ ". " +:+ Path_name (cd // n)
                              +:+ " (" +:+ pretty (st_size se (cd // n))
                              +:+ " bytes)") 1 (present (fs se) cd (images s)).
Proof.
  intros Ht Hsz.
  assert (Hw : warnings_written oe cd (images s)) by (intros n _ _; apply Hp).
  pose proof (os_load_impress_agrees oe cd None true false s Hcwd Ht Hw)
    as Hagree.
  rewrite load_all_outcome in Hagree by done.
  change (cwd (answers_of oe cd)) with cd in Hagree.
  unfold os_outcome in Hagree. cbn [trace final ret] in Hagree.
  assert (Hall : Forall (λ n, Os.os_exists oe (cd // n) = inr true
                              ∧ ∃ k, Os.os_stat_size oe (cd // n) = inr k)
                   (present (fs se) cd (images s))).
  { apply Forall_forall. intros n [Hin Hex]%elem_of_present.
    apply answers_of_true in Hex. split; [done|]. by apply Hsz. }
  destruct (os_sizes_run
              {| images := images s;
                 heap := heap s ++ [EPath ∘ PathOps.truediv cd
                                      <$> present (fs se) cd (images s)] |}
              1 _ Hall) as (t & Hrun & Hlines).
  eexists. split.
  - unfold Os.test_load_all. os_say. apply os_try_ok.
    eapply os_bind_ok; [exact Hagree|]. cbv beta.
    os_known. read_top. os_say. os_known. read_top. exact Hrun.
  - rewrite !lines_app, Hlines, length_fmap, lines_did.
    change (printed (EvCwd :: ?t)) with (printed t).
    by rewrite printed_scan.
Qed.

Lemma os_main_run s :
  tests_answer oe cd (images s) → sizes_answer oe cd (images s) →
  ∃ t,
    Os.main oe s
    = Os.mkOutcome t
        {| images := images s;
           heap := heap s ++ [EStr <$> images s;
                              EStr <$> present (fs se) cd (images s);
                              EPath ∘ PathOps.truediv cd
                                <$> present (fs se) cd (images s)] |}
        (inr ())
    ∧ lines t = script_output se s.
Proof.
  intros Ht Hsz.
  destruct (os_test_list_images_run s) as (t1 & H1 & L1).
  destruct (os_test_get_info_run
              {| images := images s; heap := heap s ++ [EStr <$> images s] |}
              Ht) as (t2 & H2 & L2).
  destruct (os_test_load_specific_run
              {| images := images s;
                 heap := (heap s ++ [EStr <$> images s])
                           ++ [EStr <$> present (fs se) cd (images s)] |}
              Ht Hsz) as (t3 & H3 & L3).
  destruct (os_test_load_all_run
              {| images := images s;
                 heap := (heap s ++ [EStr <$> images s])
                           ++ [EStr <$> present (fs se) cd (images s)] |}
              Ht Hsz) as (t4 & H4 & L4).
  cbn [images heap] in H2, H4, L2, L4.
  exists ([Did (EvPrint "=== ICT Impression Wave Verification Data Test ===")]
            ++ t1 ++ t2 ++ t3 ++ t4
            ++ [Did (EvPrint (nl "=== Test completed ==="))]).
  split.
  - replace (heap s ++ [EStr <$> images s;
                         EStr <$> present (fs se) cd (images s);
                         EPath ∘ PathOps.truediv cd
                           <$> present (fs se) cd (images s)])
      with (((heap s ++ [EStr <$> images s])
               ++ [EStr <$> present (fs se) cd (images s)])
              ++ [EPath ∘ PathOps.truediv cd
                    <$> present (fs se) cd (images s)])
      by (by rewrite <-!(assoc_L (++))).
    unfold Os.main. os_say.
    eapply os_bind_ok; [exact H1|].
    eapply os_bind_ok; [exact H2|].
    eapply os_bind_ok; [exact H3|].
    eapply os_bind_ok; [exact H4|].
    apply os_print_run, Hp.
  - rewrite !lines_app, L1, L2, L3, L4. unfold script_output.
    change (cwd (fs se)) with cd.
    fold (present (fs se) cd (images s)).
    unfold load_specific_lines. cbn [images]. change (cwd (fs se)) with cd.
    change (lines [Did (EvPrint ?x)]) with [x].
    cbn [app]. rewrite <-!(assoc_L (++)). done.
Qed.

End OsScript.

(** X13: the script runs to its end when its calls answer: when
    [Path.cwd()] answers, the test of every entry of the catalogue
    answers, [stat] answers on every file found and every line is written,
    no exception leaves the script, its first line is the banner and its
    last the closing line, the catalogue is as it was and three lists have
    been allocated.  The first two parts are outside any [try]: when
    [Path.cwd()] raises, the exception of [get_image_info] leaves the
    script, after the banner, the listing and the heading of the second
    part have been printed. *)
Theorem os_main_completes oe s :
  (∀ line, Os.os_print oe line = None) →
  (∀ cd, Os.os_cwd oe = inr cd →
     tests_answer oe cd (images s) → sizes_answer oe cd (images s) →
     Os.ret (Os.main oe s) = inr ()
     ∧ images (Os.final (Os.main oe s)) = images s
     ∧ (∃ l1 l2 l3, heap (Os.final (Os.main oe s)) = heap s ++ [l1; l2; l3])
     ∧ head (lines (Os.trace (Os.main oe s)))
       = Some "=== ICT Impression Wave Verification Data Test ==="
     ∧ last (lines (Os.trace (Os.main oe s)))
       = Some (nl "=== Test completed ==="))
  ∧ (∀ x, Os.os_cwd oe = inl x →
       Os.ret (Os.main oe s) = inl (Os.Foreign x)
       ∧ lines (Os.trace (Os.main oe s))
         = ["=== ICT Impression Wave Verification Data Test ===";
            nl "1. Available images:"]
           ++ numbered (λ i n, "   " +:+ pretty i +:+ ". " +:+ n) 1 (images s)
           ++ [nl "2. Dataset info:"]).
Proof.
  intros Hp. split.
  - intros cd Hcwd Ht Hsz.
    destruct (os_main_run oe cd Hcwd Hp s Ht Hsz) as (t & -> & Hlines).
    cbn [Os.ret Os.final Os.trace images heap]. rewrite Hlines.
    split_and!; [done | done | by eexists _, _, _ | done |].
    unfold script_output. rewrite !(assoc_L (++)). apply last_snoc.
  - intros x Hcwd.
    destruct (os_test_list_images_run oe Hp s) as (t1 & H1 & L1).
    assert (Hrun : Os.main oe s
      = Os.mkOutcome
          ([Did (EvPrint "=== ICT Impression Wave Verification Data Test ===")]
             ++ t1 ++ [Did (EvPrint (nl "2. Dataset info:"))] ++ [Did EvCwd])
          {| images := images s; heap := heap s ++ [EStr <$> images s] |}
          (inl (Os.Foreign x))).
    { unfold Os.main.
      eapply os_bind_ok; [apply os_print_run, Hp|]. cbv beta.
      eapply os_bind_ok; [exact H1|]. cbv beta.
      apply os_bind_raise. unfold Os.test_get_info.
      eapply os_bind_ok; [apply os_print_run, Hp|]. cbv beta.
      apply os_bind_raise.
      by apply (os_cwd_raises oe x None false false). }
    rewrite Hrun. cbn [Os.ret Os.trace]. split; [done|].
    rewrite !lines_app, L1. done.
Qed.

Lemma os_main_completes_witness :
  (∀ line, Os.os_print removed_dir line = None)
  ∧ Os.ret (Os.main removed_dir module_init)
    = inl (Os.Foreign (Os.mkExc "FileNotFoundError"
                         "[Errno 2] No such file or directory"))
  ∧ length (lines (Os.trace (Os.main removed_dir module_init))) = 12
  ∧ (∀ line, Os.os_print (answering first_file_env) line = None)
  ∧ Os.ret (Os.main (answering first_file_env) module_init) = inr ().
Proof.
  assert (Hp : ∀ line, Os.os_print removed_dir line = None) by reflexivity.
  assert (Hp' : ∀ line, Os.os_print (answering first_file_env) line = None)
    by reflexivity.
  destruct (os_main_completes removed_dir module_init Hp) as [_ Hraise].
  destruct (Hraise _ eq_refl) as [Hret Hlines].
  destruct (os_main_completes (answering first_file_env) module_init Hp')
    as [Hok _].
  assert (Ht : tests_answer (answering first_file_env) (PathOps.parse "/data")
                 (images module_init)) by (intros n _; by eexists).
  assert (Hsz : sizes_answer (answering first_file_env)
                  (PathOps.parse "/data") (images module_init)).
  { intros n _ Hn. exists 2048. cbn in Hn |- *. 
    injection Hn as Hn. by rewrite Hn. }
  destruct (Hok _ eq_refl Ht Hsz) as [Hret' _].
  split_and!; [exact Hp | exact Hret | by rewrite Hlines | exact Hp'
              | exact Hret'].
Defined.

(** Where the output encodes ASCII only, the script stops at the first name
    it lists: the exception of that [print] is outside any [try]. *)
Lemma main_stops_on_ascii_stdout :
  Os.ret (Os.main ascii_stdout_empty_dir module_init)
  = inl (Os.Foreign
           (Os.mkExc "UnicodeEncodeError"
              "'ascii' codec can't encode characters in position 6-9: ordinal not in range(128)"))
  ∧ lines (Os.trace (Os.main ascii_stdout_empty_dir module_init))
    = ["=== ICT Impression Wave Verification Data Test ===";
       nl "1. Available images:"].
Proof. split; by vm_compute. Qed.
